(** * A chained hash map with doubling resize: src/HashMap/hashMap.js

    Shallow embedding of the [HashMap] class and the properties its
    specification states about it.

    Modelling conventions.
    - A JS string is the sequence of its UTF-16 code units ([jsstring]);
      [key.charCodeAt(i)] reads the i-th unit.
    - JS numbers that occur in the class (capacity, size, hash, indices)
      are integers; they are modelled by [Z].  [%] is the truncating
      remainder [Z.rem].  The load factor [size / capacity] is a rational
      ([Q]).  For capacities a JS array can have (below 2^32) the doubles
      of the source agree with this: [hash * 31 + charCode] stays below
      2^53, and the rounded quotient compares with 0.75 as the exact one.
    - [this._buckets] is a sparse array: a slot is a hole ([None]) or holds
      a chain ([Some bucket]); an empty chain is a truthy value in JS, so
      [Some []] is a present bucket.  Writing past the end extends the
      array with holes, as JS does.
    - The object is threaded explicitly: a method that mutates [this]
      returns the new state; [set] can throw and returns a [result].
    - [console.log] output carries no state and is left out. *)

From Stdlib Require Import ZArith QArith Lia String Ascii.
From stdpp Require Import base tactics option numbers list relations gmap.

Local Open Scope Z_scope.

(** ** JS strings and values *)

Definition jsstring : Type := list N.

(** A string literal of the source, as code units. *)
Definition str (s : string) : jsstring :=
  List.map N_of_ascii (list_ascii_of_string s).

(** [s.charCodeAt(i)], for [i] within the string. *)
Definition charCodeAt (s : jsstring) (i : nat) : Z := Z.of_N (nth i s 0%N).

(** The payloads stored in the table.  The table never inspects a value
    except to compare the result of [get] with [undefined] and to render
    it in [entries]. *)
Inductive Value : Type :=
| VUndefined
| VNull
| VBool (b : bool)
| VStr (s : jsstring).

(** [v !== undefined] *)
Definition strict_ne_undefined (v : Value) : bool :=
  match v with
  | VUndefined => false
  | _ => true
  end.

(** The rendering of a value inside a template literal. *)
Definition ToString (v : Value) : jsstring :=
  match v with
  | VUndefined => str "undefined"
  | VNull => str "null"
  | VBool true => str "true"
  | VBool false => str "false"
  | VStr s => s
  end.

(** What a call produces: a result, or a thrown [Error] with its message. *)
Inductive result (A : Type) : Type :=
| Ok (a : A)
| Throw (message : string).
Arguments Ok {A} a.
Arguments Throw {A} message.

(** ** Sparse arrays *)

(** [arr[i] = x]: in range the slot is overwritten, past the end the
    array grows and the slots in between are holes. *)
Definition array_put {A : Type} (i : nat) (x : A) (arr : list (option A))
  : list (option A) :=
  if decide (i < length arr)%nat
  then <[i := Some x]> arr
  else arr ++ replicate (i - length arr) None ++ [Some x].

(** ** The class *)

Module HashMap.

(** A chain entry [{ key, value }]. *)
Record Entry : Type := mkEntry { key : jsstring; value : Value }.

(** The fields of a [HashMap] object. *)
Record t : Type := mk {
  _buckets : list (option (list Entry));
  _capacity : Z;
  _loadFactor : Q;
  _size : Z;
  _resizeCount : Z
}.

(** [constructor(initialCapacity = 16)] *)
Definition constructor (initialCapacity : option Z) : t :=
  let initialCapacity := default 16 initialCapacity in
  {| _buckets := replicate (Z.to_nat initialCapacity) None;
     _capacity := initialCapacity;
     _loadFactor := 3 # 4; (* 0.75 *)
     _size := 0;
     _resizeCount := 0 |}.

(** The [for] loop of [_hash]: [n] iterations remain, [i] is the loop
    index and [hash] the accumulator. *)
Fixpoint _hash_loop (capacity : Z) (key : jsstring) (n i : nat) (hash : Z) : Z :=
  match n with
  | O => hash
  | S n' =>
      let primeNumber := 31 in
      _hash_loop capacity key n' (S i)
        (Z.rem (hash * primeNumber + charCodeAt key i) capacity)
  end.

Definition _hash (this : t) (key : jsstring) : Z :=
  _hash_loop (_capacity this) key (length key) 0 0.

Definition _needsResize (this : t) : bool :=
  negb (Qle_bool (inject_Z (_size this) / inject_Z (_capacity this))
                 (_loadFactor this)).

(** The scan of a chain in [_insertWithoutResize]: [Some] of the chain
    with the first entry for [k] overwritten, [None] when the loop ends
    without finding [k]. *)
Fixpoint update_chain (k : jsstring) (v : Value) (bucket : list Entry)
  : option (list Entry) :=
  match bucket with
  | [] => None
  | item :: rest =>
      if decide (key item = k)
      then Some ({| key := key item; value := v |} :: rest)
      else cons item <$> update_chain k v rest
  end.

Definition _insertWithoutResize (k : jsstring) (v : Value) (this : t) : t :=
  let index := Z.to_nat (_hash this k) in
  (* if (!this._buckets[index]) this._buckets[index] = [] *)
  let buckets :=
    match _buckets this !! index with
    | Some (Some _) => _buckets this
    | _ => array_put index [] (_buckets this)
    end in
  let bucket :=
    match buckets !! index with
    | Some (Some bucket) => bucket
    | _ => []
    end in
  match update_chain k v bucket with
  | Some bucket' =>
      {| _buckets := array_put index bucket' buckets;
         _capacity := _capacity this;
         _loadFactor := _loadFactor this;
         _size := _size this;
         _resizeCount := _resizeCount this |}
  | None =>
      {| _buckets := array_put index (bucket ++ [{| key := k; value := v |}]) buckets;
         _capacity := _capacity this;
         _loadFactor := _loadFactor this;
         _size := _size this + 1;
         _resizeCount := _resizeCount this |}
  end.

(** The rehash loops of [_resize], over the old buckets. *)
Definition rehash_bucket (this : t) (bucket : option (list Entry)) : t :=
  match bucket with
  | Some bucket =>
      fold_left (fun this item => _insertWithoutResize (key item) (value item) this)
                bucket this
  | None => this
  end.

Definition _resize (this : t) : t :=
  let oldBuckets := _buckets this in
  let capacity := _capacity this * 2 in
  let this :=
    {| _buckets := replicate (Z.to_nat capacity) None;
       _capacity := capacity;
       _loadFactor := _loadFactor this;
       _size := 0;
       _resizeCount := _resizeCount this + 1 |} in
  fold_left rehash_bucket oldBuckets this.

(** [set(key, value)]; a [null] or [undefined] key is [None]. *)
Definition set (k : option jsstring) (v : Value) (this : t) : result t :=
  match k with
  | None => Throw "Key cannot be null or undefined"
  | Some k =>
      let this := if _needsResize this then _resize this else this in
      Ok (_insertWithoutResize k v this)
  end.

(** The scan of a chain in [get]. *)
Fixpoint scan (k : jsstring) (bucket : list Entry) : Value :=
  match bucket with
  | [] => VUndefined
  | item :: rest => if decide (key item = k) then value item else scan k rest
  end.

Definition get (k : jsstring) (this : t) : Value :=
  let index := Z.to_nat (_hash this k) in
  match _buckets this !! index with
  | Some (Some bucket) => scan k bucket
  | _ => VUndefined
  end.

Definition has (k : jsstring) (this : t) : bool :=
  strict_ne_undefined (get k this).

(** The position at which the loop of [remove] finds [k], counting
    from [i]. *)
Fixpoint find_index (k : jsstring) (bucket : list Entry) (i : nat) : option nat :=
  match bucket with
  | [] => None
  | item :: rest => if decide (key item = k) then Some i else find_index k rest (S i)
  end.

(** [bucket[i] = bucket[bucket.length - 1]; bucket.pop()] *)
Definition swap_pop (i : nat) (bucket : list Entry) : list Entry :=
  match bucket !! (length bucket - 1)%nat with
  | Some l => take (length bucket - 1) (<[i := l]> bucket)
  | None => bucket
  end.

(** [remove(key)]: the returned flag and the state afterwards.  When
    [has] holds the bucket exists, so the first branch of the inner
    match is the only one taken under the guard. *)
Definition remove (k : jsstring) (this : t) : bool * t :=
  if has k this then
    let index := Z.to_nat (_hash this k) in
    match _buckets this !! index with
    | Some (Some bucket) =>
        match find_index k bucket 0 with
        | Some i =>
            (true,
             {| _buckets := array_put index (swap_pop i bucket) (_buckets this);
                _capacity := _capacity this;
                _loadFactor := _loadFactor this;
                _size := _size this - 1;
                _resizeCount := _resizeCount this |})
        | None => (false, this)
        end
    | _ => (false, this)
    end
  else (false, this).

Definition length (this : t) : Z := _size this.

Definition clear (this : t) : t :=
  {| _buckets := replicate (Z.to_nat (_capacity this)) None;
     _capacity := _capacity this;
     _loadFactor := _loadFactor this;
     _size := 0;
     _resizeCount := _resizeCount this |}.

(** [this._buckets.forEach(bucket => { if (bucket) bucket.forEach(item =>
    out.push(f(item))) })], the shape shared by [keys], [values] and
    [entries]. *)
Definition collect {A : Type} (f : Entry -> A) (this : t) : list A :=
  fold_left
    (fun out bucket =>
       match bucket with
       | Some bucket => fold_left (fun out item => out ++ [f item]) bucket out
       | None => out
       end)
    (_buckets this) [].

Definition keys (this : t) : list jsstring := collect key this.

Definition values (this : t) : list Value := collect value this.

(** One formatted string per entry: the template literal
    [`[${item.key}, ${item.value}]`]. *)
Definition format_entry (item : Entry) : jsstring :=
  str "[" ++ key item ++ str ", " ++ ToString (value item) ++ str "]".

Definition entries (this : t) : list jsstring := collect format_entry this.

End HashMap.

(** ** Notions the specification speaks in *)

(** The hash as the specification words it: start at 0 and, for each
    character, accumulate [hash = (hash * 31 + charCode) mod capacity]. *)
Definition rolling_step (capacity : Z) (hash : Z) (c : N) : Z :=
  (hash * 31 + Z.of_N c) mod capacity.

Definition rolling_hash (capacity : Z) (key : jsstring) : Z :=
  fold_left (rolling_step capacity) key 0.

(** The chain stored at bucket index [i]; a hole and an index outside
    the array are the empty chain. *)
Definition bucket_at (i : nat) (bs : list (option (list HashMap.Entry)))
  : list HashMap.Entry :=
  match bs !! i with
  | Some (Some b) => b
  | _ => []
  end.

(** All stored entries, by bucket index and then by chain order. *)
Definition chain_order (bs : list (option (list HashMap.Entry)))
  : list HashMap.Entry :=
  concat (default [] <$> bs).

(** The key-value pairs a table stores, in that order. *)
Definition pairs (m : HashMap.t) : list (jsstring * Value) :=
  (fun e => (HashMap.key e, HashMap.value e)) <$> chain_order (HashMap._buckets m).

(** "If the insertion would cross the threshold": the load factor with
    one more entry at the current capacity exceeds the threshold. *)
Definition would_cross (m : HashMap.t) : bool :=
  negb (Qle_bool (inject_Z (HashMap._size m + 1) / inject_Z (HashMap._capacity m))
                 (HashMap._loadFactor m)).

(** The chain after the insert-or-update of [_insertWithoutResize]: the
    first entry for [k] overwritten in place, or a new entry appended. *)
Definition upsert (k : jsstring) (v : Value) (b : list HashMap.Entry)
  : list HashMap.Entry :=
  match HashMap.update_chain k v b with
  | Some b' => b'
  | None => b ++ [{| HashMap.key := k; HashMap.value := v |}]
  end.

(** A key is stored when some chain holds an entry for it. *)
Definition stored (k : jsstring) (m : HashMap.t) : Prop :=
  k ∈ HashMap.key <$> chain_order (HashMap._buckets m).

#[global] Instance stored_dec (k : jsstring) (m : HashMap.t) : Decision (stored k m).
Proof. unfold stored. apply _. Defined.

(** The representation invariant of the table. *)
Record wf (m : HashMap.t) : Prop := mk_wf {
  wf_capacity : 0 < HashMap._capacity m;
  wf_buckets : length (HashMap._buckets m) = Z.to_nat (HashMap._capacity m);
  wf_loadFactor : HashMap._loadFactor m = 3 # 4;
  wf_placed : forall i e,
      e ∈ bucket_at i (HashMap._buckets m) ->
      Z.to_nat (HashMap._hash m (HashMap.key e)) = i;
  wf_unique : NoDup (HashMap.key <$> chain_order (HashMap._buckets m));
  wf_size : HashMap._size m = Z.of_nat (length (chain_order (HashMap._buckets m)))
}.

(** The load factor [length() / capacity]. *)
Definition load_factor (m : HashMap.t) : Q :=
  inject_Z (HashMap.length m) / inject_Z (HashMap._capacity m).

(** The bound the check-before-insert of [set] maintains: the load
    factor without the newest entry is at most 0.75. *)
Definition load_bounded (m : HashMap.t) : Prop :=
  4 * (HashMap._size m - 1) <= 3 * HashMap._capacity m.

(** The table on which [set] runs the bare insert: resized when the load
    factor exceeds the threshold at the call. *)
Definition gate (m : HashMap.t) : HashMap.t :=
  if HashMap._needsResize m then HashMap._resize m else m.

(** The states a client can bring a table into: construction with a
    positive capacity (or the default), then any calls of the mutating
    methods. *)
Inductive reachable : HashMap.t -> Prop :=
| reach_new : forall c, 0 < c -> reachable (HashMap.constructor (Some c))
| reach_default : reachable (HashMap.constructor None)
| reach_set : forall k v m m',
    reachable m -> HashMap.set (Some k) v m = Ok m' -> reachable m'
| reach_remove : forall k m, reachable m -> reachable (HashMap.remove k m).2
| reach_clear : forall m, reachable m -> reachable (HashMap.clear m).

(** Bucket index first, chain order second: the chains of the buckets
    0, 1, ..., one after the other. *)
Definition by_bucket_then_chain (bs : list (option (list HashMap.Entry)))
  : list HashMap.Entry :=
  concat ((fun i => bucket_at i bs) <$> seq 0 (length bs)).

(** ** The tables of the source's own test run *)

(** The state after a series of [set] calls. *)
Definition after_sets (kvs : list (jsstring * Value)) (m : HashMap.t) : HashMap.t :=
  fold_left (fun m kv =>
               match HashMap.set (Some kv.1) kv.2 m with
               | Ok m' => m'
               | Throw _ => m
               end) kvs m.

Definition entry (k v : string) : jsstring * Value := (str k, VStr (str v)).

(** The twelve entries the test run loads into a default table. *)
Definition twelve_entries : list (jsstring * Value) :=
  [entry "apple" "red"; entry "banana" "yellow"; entry "carrot" "orange";
   entry "dog" "brown"; entry "elephant" "gray"; entry "frog" "green";
   entry "grape" "purple"; entry "hat" "black"; entry "ice cream" "white";
   entry "jacket" "blue"; entry "kite" "pink"; entry "lion" "golden"].

Definition twelve : HashMap.t := after_sets twelve_entries (HashMap.constructor None).

(** ... and after ["moon"] has been set as well. *)
Definition thirteen : HashMap.t := after_sets [entry "moon" "silver"] twelve.

(** A default table after [set("k", undefined)]. *)
Definition with_undefined : HashMap.t :=
  after_sets [(str "k", VUndefined)] (HashMap.constructor None).

(** Two tables that store different pairs under one rendering. *)
Definition comma_in_key : HashMap.t :=
  after_sets [entry "a, b" "c"] (HashMap.constructor (Some 1)).

Definition comma_in_value : HashMap.t :=
  after_sets [entry "a" "b, c"] (HashMap.constructor (Some 1)).

(** ** The table as a finite map *)

(** The finite map a table stands for, read off its public iteration:
    the keys of [keys()] bound to the values of [values()]. *)
Definition contents (m : HashMap.t) : gmap jsstring Value :=
  list_to_map (zip (HashMap.keys m) (HashMap.values m)).

(** One call of a mutating method. *)
Inductive step : HashMap.t -> HashMap.t -> Prop :=
| step_set : forall k v m m', HashMap.set (Some k) v m = Ok m' -> step m m'
| step_remove : forall k m, step m (HashMap.remove k m).2
| step_clear : forall m, step m (HashMap.clear m).

(** The polynomial in 31 that the hash evaluates: the character codes
    are the coefficients, the first character has the highest power. *)
Fixpoint hash_polynomial (key : jsstring) : Z :=
  match key with
  | [] => 0
  | c :: rest => Z.of_N c * 31 ^ Z.of_nat (length rest) + hash_polynomial rest
  end.

(** What the update loop of [_insertWithoutResize] does to one entry. *)
Definition overwrite (k : jsstring) (v : Value) (e : HashMap.Entry) : HashMap.Entry :=
  if decide (HashMap.key e = k)
  then {| HashMap.key := HashMap.key e; HashMap.value := v |}
  else e.

(** Whether a key is stored in a concrete table, by evaluation. *)
Ltac decide_stored :=
  match goal with
  | |- ~ stored ?k ?m =>
      apply (bool_decide_eq_false_1 (stored k m)); vm_compute; reflexivity
  | |- stored ?k ?m =>
      apply (bool_decide_eq_true_1 (stored k m)); vm_compute; reflexivity
  end.

(** ** The hash function *)

Section Hash.
Variable capacity : Z.
Hypothesis capacity_pos : 0 < capacity.

Lemma charCodeAt_middle (pre suf : jsstring) (c : N) :
  charCodeAt (pre ++ c :: suf) (length pre) = Z.of_N c.
Proof.
  unfold charCodeAt. f_equal.
  induction pre as [|p pre IH]; simpl; auto.
Qed.

Lemma hash_loop_fold (suf : jsstring) :
  forall (pre : jsstring) (hash : Z),
    0 <= hash ->
    HashMap._hash_loop capacity (pre ++ suf) (length suf) (length pre) hash
    = fold_left (rolling_step capacity) suf hash.
Proof.
  induction suf as [|c suf IH]; intros pre hash Hh; simpl.
  - reflexivity.
  - rewrite charCodeAt_middle.
    replace (pre ++ c :: suf) with ((pre ++ [c]) ++ suf)
      by (rewrite <- app_assoc; reflexivity).
    replace (S (length pre)) with (length (pre ++ [c]))
      by (rewrite length_app; simpl; lia).
    rewrite Z.rem_mod_nonneg by lia.
    apply IH. unfold rolling_step. apply Z.mod_pos_bound. exact capacity_pos.
Qed.

Lemma fold_step_range (key : jsstring) :
  forall hash, 0 <= hash < capacity ->
               0 <= fold_left (rolling_step capacity) key hash < capacity.
Proof.
  induction key as [|c key IH]; intros hash Hh; simpl.
  - exact Hh.
  - apply IH. unfold rolling_step. apply Z.mod_pos_bound. exact capacity_pos.
Qed.

Lemma hash_loop_rolling (key : jsstring) :
  HashMap._hash_loop capacity key (length key) 0 0 = rolling_hash capacity key.
Proof.
  apply (hash_loop_fold key [] 0). lia.
Qed.

Lemma rolling_hash_range (key : jsstring) :
  0 <= rolling_hash capacity key < capacity.
Proof.
  apply fold_step_range. lia.
Qed.
End Hash.

Lemma hash_range (m : HashMap.t) (k : jsstring) :
  0 < HashMap._capacity m ->
  0 <= HashMap._hash m k < HashMap._capacity m.
Proof.
  intros Hc. unfold HashMap._hash.
  rewrite hash_loop_rolling by assumption.
  apply rolling_hash_range; assumption.
Qed.

Lemma hash_index_lt (m : HashMap.t) (k : jsstring) :
  wf m -> (Z.to_nat (HashMap._hash m k) < length (HashMap._buckets m))%nat.
Proof.
  intros W. rewrite (wf_buckets m W).
  pose proof (hash_range m k (wf_capacity m W)). lia.
Qed.

(** ** Sparse arrays and chain order *)

Lemma array_put_lt {A : Type} (i : nat) (x : A) (arr : list (option A)) :
  (i < length arr)%nat -> array_put i x arr = <[i := Some x]> arr.
Proof.
  intros H. unfold array_put. destruct (decide (i < length arr)%nat); [reflexivity|lia].
Qed.

Lemma bucket_at_insert_eq (i : nat) (b : list HashMap.Entry) bs :
  (i < length bs)%nat -> bucket_at i (<[i := Some b]> bs) = b.
Proof.
  intros H. unfold bucket_at. rewrite list_lookup_insert_eq by exact H. reflexivity.
Qed.

Lemma bucket_at_insert_ne (i j : nat) (b : list HashMap.Entry) bs :
  i <> j -> bucket_at j (<[i := Some b]> bs) = bucket_at j bs.
Proof.
  intros H. unfold bucket_at. rewrite list_lookup_insert_ne by exact H. reflexivity.
Qed.

Lemma chain_order_app bs1 bs2 :
  chain_order (bs1 ++ bs2) = chain_order bs1 ++ chain_order bs2.
Proof.
  unfold chain_order. rewrite fmap_app, concat_app. reflexivity.
Qed.

Lemma chain_order_cons x bs :
  chain_order (x :: bs) = default [] x ++ chain_order bs.
Proof. reflexivity. Qed.

(** The chain order around bucket [i]: what precedes it, its chain, what
    follows it. *)
Lemma chain_order_split (i : nat) bs :
  (i < length bs)%nat ->
  chain_order bs
  = chain_order (take i bs) ++ bucket_at i bs ++ chain_order (drop (S i) bs).
Proof.
  intros H. destruct (lookup_lt_is_Some_2 bs i H) as [x Hx].
  rewrite <- (take_drop_middle bs i x Hx) at 1.
  rewrite chain_order_app, chain_order_cons.
  unfold bucket_at. rewrite Hx. destruct x; reflexivity.
Qed.

Lemma chain_order_insert (i : nat) (b : list HashMap.Entry) bs :
  (i < length bs)%nat ->
  chain_order (<[i := Some b]> bs)
  = chain_order (take i bs) ++ b ++ chain_order (drop (S i) bs).
Proof.
  intros H. rewrite insert_take_drop by exact H.
  rewrite chain_order_app, chain_order_cons. reflexivity.
Qed.

Lemma chain_order_replicate (n : nat) :
  chain_order (replicate n None) = [].
Proof.
  induction n as [|n IH]; [reflexivity|].
  simpl. rewrite chain_order_cons, IH. reflexivity.
Qed.

Lemma elem_of_chain_order (e : HashMap.Entry) bs :
  e ∈ chain_order bs <-> exists i, e ∈ bucket_at i bs.
Proof.
  unfold chain_order. rewrite list_elem_of_In, in_concat. split.
  - intros (b & Hb & He). apply list_elem_of_In in Hb, He.
    apply list_elem_of_fmap in Hb as (x & -> & Hx).
    apply list_elem_of_lookup in Hx as (i & Hi).
    exists i. unfold bucket_at. rewrite Hi.
    destruct x; simpl in He; [exact He|]. inversion He.
  - intros (i & He). unfold bucket_at in He.
    destruct (bs !! i) as [[b|]|] eqn:Hi; try (inversion He; fail).
    exists b. rewrite <- !list_elem_of_In. split; [|exact He].
    apply list_elem_of_fmap. exists (Some b). split; [reflexivity|].
    apply list_elem_of_lookup. exists i. exact Hi.
Qed.

(** ** Chains *)

Lemma update_chain_Some k v b b' :
  HashMap.update_chain k v b = Some b' ->
  HashMap.key <$> b' = HashMap.key <$> b /\ k ∈ HashMap.key <$> b.
Proof.
  revert b'. induction b as [|item rest IH]; intros b' H; simpl in H.
  - discriminate.
  - destruct (decide (HashMap.key item = k)) as [E|NE].
    + inversion H; subst; simpl. split; [reflexivity|]. left.
    + destruct (HashMap.update_chain k v rest) as [r|]; [|discriminate].
      inversion H; subst; simpl.
      destruct (IH r eq_refl) as [IH1 IH2].
      split; [f_equal; exact IH1|]. right. exact IH2.
Qed.

Lemma update_chain_None k v b :
  HashMap.update_chain k v b = None <-> k ∉ HashMap.key <$> b.
Proof.
  induction b as [|item rest IH]; simpl.
  - split; [intros _ H; inversion H|reflexivity].
  - destruct (decide (HashMap.key item = k)) as [E|NE].
    + split; [discriminate|]. intros H. exfalso. apply H. rewrite E. left.
    + rewrite not_elem_of_cons, <- IH.
      destruct (HashMap.update_chain k v rest); simpl; split; intros H.
      * discriminate.
      * destruct H as [_ H]. discriminate.
      * split; [congruence|reflexivity].
      * reflexivity.
Qed.

Lemma scan_update k v b b' k' :
  HashMap.update_chain k v b = Some b' ->
  HashMap.scan k' b' = if decide (k' = k) then v else HashMap.scan k' b.
Proof.
  revert b'. induction b as [|item rest IH]; intros b' H; simpl in H.
  - discriminate.
  - destruct (decide (HashMap.key item = k)) as [E|NE].
    + inversion H; subst; simpl.
      destruct (decide (HashMap.key item = k')) as [E'|NE'];
        destruct (decide (k' = HashMap.key item)); congruence.
    + destruct (HashMap.update_chain k v rest) as [r|]; [|discriminate].
      inversion H; subst; simpl.
      destruct (decide (HashMap.key item = k')) as [E'|NE'].
      * destruct (decide (k' = k)); congruence.
      * apply IH. reflexivity.
Qed.

Lemma scan_notin k b :
  k ∉ HashMap.key <$> b -> HashMap.scan k b = VUndefined.
Proof.
  induction b as [|item rest IH]; simpl; intros H; [reflexivity|].
  apply not_elem_of_cons in H as [H1 H2].
  destruct (decide (HashMap.key item = k)); [congruence|]. apply IH, H2.
Qed.

Lemma scan_snoc k v b k' :
  k ∉ HashMap.key <$> b ->
  HashMap.scan k' (b ++ [{| HashMap.key := k; HashMap.value := v |}])
  = if decide (k' = k) then v else HashMap.scan k' b.
Proof.
  induction b as [|item rest IH]; simpl; intros H.
  - destruct (decide (k = k')); destruct (decide (k' = k)); congruence.
  - apply not_elem_of_cons in H as [H1 H2].
    destruct (decide (HashMap.key item = k')) as [E|NE].
    + destruct (decide (k' = k)); congruence.
    + apply IH, H2.
Qed.

Lemma scan_elem e b :
  NoDup (HashMap.key <$> b) -> e ∈ b ->
  HashMap.scan (HashMap.key e) b = HashMap.value e.
Proof.
  induction b as [|item rest IH]; simpl; intros ND H.
  - inversion H.
  - apply NoDup_cons in ND as [N1 N2].
    apply elem_of_cons in H as [->|H].
    + destruct (decide (HashMap.key item = HashMap.key item)); congruence.
    + destruct (decide (HashMap.key item = HashMap.key e)) as [E|NE].
      * exfalso. apply N1. rewrite E. apply list_elem_of_fmap. eauto.
      * apply IH; assumption.
Qed.

Lemma find_index_Some k b :
  forall j, k ∈ HashMap.key <$> b ->
            exists i x, HashMap.find_index k b j = Some (j + i)%nat
                        /\ b !! i = Some x /\ HashMap.key x = k.
Proof.
  induction b as [|item rest IH]; simpl; intros j H.
  - inversion H.
  - destruct (decide (HashMap.key item = k)) as [E|NE].
    + exists 0%nat, item. rewrite Nat.add_0_r. auto.
    + apply elem_of_cons in H as [H|H]; [congruence|].
      destruct (IH (S j) H) as (i & x & H1 & H2 & H3).
      exists (S i), x. rewrite H1. split; [f_equal; lia|]. auto.
Qed.

(** Swap-and-pop takes exactly the entry at [i] out of the chain; the
    order of the rest may change. *)
Lemma swap_pop_perm i x b :
  b !! i = Some x -> x :: HashMap.swap_pop i b ≡ₚ b.
Proof.
  destruct b as [|y b0 _] using rev_ind; intros H; [inversion H|].
  unfold HashMap.swap_pop.
  rewrite length_app; simpl.
  replace (length b0 + 1 - 1)%nat with (length b0) by lia.
  rewrite lookup_app_r by lia. rewrite Nat.sub_diag; simpl.
  destruct (decide (i < length b0)%nat) as [Hlt|Hge].
  - rewrite lookup_app_l in H by exact Hlt.
    rewrite insert_app_l by exact Hlt.
    rewrite take_app_length' by (rewrite length_insert; reflexivity).
    rewrite insert_take_drop by exact Hlt.
    rewrite <- (take_drop_middle b0 i x H) at 3.
    rewrite <- (Permutation_cons_append _ y).
    rewrite <- !Permutation_middle.
    apply Permutation_swap.
  - pose proof (lookup_lt_Some _ _ _ H) as Hi.
    rewrite length_app in Hi; simpl in Hi.
    assert (i = length b0) as -> by lia.
    rewrite lookup_app_r in H by lia. rewrite Nat.sub_diag in H.
    inversion H; subst.
    rewrite list_insert_id by (rewrite lookup_app_r by lia; rewrite Nat.sub_diag; reflexivity).
    rewrite take_app_length.
    apply Permutation_cons_append.
Qed.

(** ** The bare insert path *)

Lemma get_scan k m :
  HashMap.get k m
  = HashMap.scan k (bucket_at (Z.to_nat (HashMap._hash m k)) (HashMap._buckets m)).
Proof.
  unfold HashMap.get, bucket_at.
  destruct (HashMap._buckets m !! Z.to_nat (HashMap._hash m k)) as [[b|]|]; reflexivity.
Qed.

Lemma insert_capacity k v m :
  HashMap._capacity (HashMap._insertWithoutResize k v m) = HashMap._capacity m.
Proof.
  unfold HashMap._insertWithoutResize.
  destruct (HashMap.update_chain _ _ _); reflexivity.
Qed.

Lemma insert_loadFactor k v m :
  HashMap._loadFactor (HashMap._insertWithoutResize k v m) = HashMap._loadFactor m.
Proof.
  unfold HashMap._insertWithoutResize.
  destruct (HashMap.update_chain _ _ _); reflexivity.
Qed.

Lemma insert_resizeCount k v m :
  HashMap._resizeCount (HashMap._insertWithoutResize k v m) = HashMap._resizeCount m.
Proof.
  unfold HashMap._insertWithoutResize.
  destruct (HashMap.update_chain _ _ _); reflexivity.
Qed.

Lemma insert_hash k v m k' :
  HashMap._hash (HashMap._insertWithoutResize k v m) k' = HashMap._hash m k'.
Proof.
  unfold HashMap._hash. rewrite insert_capacity. reflexivity.
Qed.

(** In a well-formed table the insert rewrites one slot of the array. *)
Lemma insert_buckets k v m :
  wf m ->
  let h := Z.to_nat (HashMap._hash m k) in
  HashMap._buckets (HashMap._insertWithoutResize k v m)
  = <[h := Some (upsert k v (bucket_at h (HashMap._buckets m)))]> (HashMap._buckets m).
Proof.
  intros W h. pose proof (hash_index_lt m k W) as Hlt. fold h in Hlt.
  unfold HashMap._insertWithoutResize, upsert, bucket_at. fold h.
  destruct (HashMap._buckets m !! h) as [[b|]|] eqn:Hb.
  - rewrite Hb.
    destruct (HashMap.update_chain k v b); simpl; apply array_put_lt, Hlt.
  - rewrite (array_put_lt h [] _ Hlt).
    rewrite list_lookup_insert_eq by exact Hlt.
    destruct (HashMap.update_chain k v []); simpl;
      rewrite array_put_lt by (rewrite length_insert; exact Hlt);
      apply list_insert_insert_eq.
  - apply lookup_ge_None in Hb. lia.
Qed.

Lemma insert_size k v m :
  wf m ->
  HashMap._size (HashMap._insertWithoutResize k v m)
  = match HashMap.update_chain k v
            (bucket_at (Z.to_nat (HashMap._hash m k)) (HashMap._buckets m)) with
    | Some _ => HashMap._size m
    | None => HashMap._size m + 1
    end.
Proof.
  intros W. pose proof (hash_index_lt m k W) as Hlt.
  unfold HashMap._insertWithoutResize, bucket_at.
  destruct (HashMap._buckets m !! Z.to_nat (HashMap._hash m k)) as [[b|]|] eqn:Hb.
  - rewrite Hb. destruct (HashMap.update_chain k v b); reflexivity.
  - rewrite (array_put_lt _ [] _ Hlt).
    rewrite list_lookup_insert_eq by exact Hlt.
    destruct (HashMap.update_chain k v []); reflexivity.
  - apply lookup_ge_None in Hb. lia.
Qed.

Lemma bucket_unique m i :
  wf m -> NoDup (HashMap.key <$> bucket_at i (HashMap._buckets m)).
Proof.
  intros W. destruct (decide (i < length (HashMap._buckets m))%nat) as [Hlt|Hge].
  - pose proof (wf_unique m W) as ND.
    rewrite (chain_order_split i _ Hlt), !fmap_app in ND.
    apply NoDup_app in ND as (_ & _ & ND).
    apply NoDup_app in ND as (ND & _). exact ND.
  - unfold bucket_at. rewrite lookup_ge_None_2 by lia. constructor.
Qed.

(** A stored key sits in the chain its hash selects. *)
Lemma stored_bucket k m :
  wf m ->
  stored k m
  <-> k ∈ HashMap.key <$> bucket_at (Z.to_nat (HashMap._hash m k)) (HashMap._buckets m).
Proof.
  intros W. unfold stored. rewrite !list_elem_of_fmap. split.
  - intros (e & -> & He). exists e. split; [reflexivity|].
    apply elem_of_chain_order in He as (i & Hi).
    rewrite (wf_placed m W i e Hi). exact Hi.
  - intros (e & -> & He). exists e. split; [reflexivity|].
    apply elem_of_chain_order. eauto.
Qed.

Lemma get_stored e m :
  wf m -> e ∈ chain_order (HashMap._buckets m) ->
  HashMap.get (HashMap.key e) m = HashMap.value e.
Proof.
  intros W He. rewrite get_scan.
  apply elem_of_chain_order in He as (i & Hi).
  rewrite (wf_placed m W i e Hi).
  apply scan_elem; [apply bucket_unique, W|exact Hi].
Qed.

Lemma get_absent k m :
  wf m -> ~ stored k m -> HashMap.get k m = VUndefined.
Proof.
  intros W H. rewrite get_scan. apply scan_notin.
  rewrite <- stored_bucket by exact W. exact H.
Qed.

Lemma scan_upsert k v b k' :
  HashMap.scan k' (upsert k v b) = if decide (k' = k) then v else HashMap.scan k' b.
Proof.
  unfold upsert. destruct (HashMap.update_chain k v b) as [b'|] eqn:E.
  - apply (scan_update k v b b' k' E).
  - apply scan_snoc. apply update_chain_None in E. exact E.
Qed.

Lemma insert_get k v m k' :
  wf m ->
  HashMap.get k' (HashMap._insertWithoutResize k v m)
  = if decide (k' = k) then v else HashMap.get k' m.
Proof.
  intros W. rewrite !get_scan, insert_hash, insert_buckets by exact W.
  pose proof (hash_index_lt m k W) as Hlt. cbv zeta.
  destruct (decide (Z.to_nat (HashMap._hash m k) = Z.to_nat (HashMap._hash m k'))) as [E|NE].
  - rewrite <- E. rewrite bucket_at_insert_eq by exact Hlt. apply scan_upsert.
  - rewrite bucket_at_insert_ne by exact NE.
    destruct (decide (k' = k)); [congruence|reflexivity].
Qed.

Lemma update_chain_elem k v b b' e :
  HashMap.update_chain k v b = Some b' -> e ∈ b' -> HashMap.key e = k \/ e ∈ b.
Proof.
  revert b'. induction b as [|item rest IH]; intros b' H He; simpl in H.
  - discriminate.
  - destruct (decide (HashMap.key item = k)) as [E|NE].
    + inversion H; subst.
      apply elem_of_cons in He as [->|He]; [left; reflexivity|].
      right. right. exact He.
    + destruct (HashMap.update_chain k v rest) as [r|]; [|discriminate].
      inversion H; subst.
      apply elem_of_cons in He as [->|He]; [right; left|].
      destruct (IH r eq_refl He) as [?|?]; [left; assumption|right; right; assumption].
Qed.

Lemma upsert_elem k v b e :
  e ∈ upsert k v b -> HashMap.key e = k \/ e ∈ b.
Proof.
  unfold upsert. destruct (HashMap.update_chain k v b) as [b'|] eqn:E; intros He.
  - apply (update_chain_elem k v b b' e E He).
  - apply elem_of_app in He as [He|He]; [right; exact He|].
    apply list_elem_of_singleton in He. subst. left. reflexivity.
Qed.

(** Updating a stored key leaves the sequence of keys as it was. *)
Lemma insert_keys_old k v m :
  wf m -> stored k m ->
  HashMap.key <$> chain_order (HashMap._buckets (HashMap._insertWithoutResize k v m))
  = HashMap.key <$> chain_order (HashMap._buckets m).
Proof.
  intros W S. pose proof (hash_index_lt m k W) as Hlt.
  rewrite insert_buckets by exact W. cbv zeta.
  rewrite chain_order_insert by exact Hlt.
  rewrite (chain_order_split _ (HashMap._buckets m) Hlt) at 1.
  rewrite !fmap_app. do 2 f_equal.
  apply (stored_bucket k m W) in S.
  unfold upsert.
  destruct (HashMap.update_chain k v _) as [b'|] eqn:E.
  - apply (update_chain_Some k v _ b' E).
  - apply update_chain_None in E. contradiction.
Qed.

(** Inserting a key that is not stored adds it to the keys, once. *)
Lemma insert_keys_new k v m :
  wf m -> ~ stored k m ->
  HashMap.key <$> chain_order (HashMap._buckets (HashMap._insertWithoutResize k v m))
  ≡ₚ k :: (HashMap.key <$> chain_order (HashMap._buckets m)).
Proof.
  intros W S. pose proof (hash_index_lt m k W) as Hlt.
  rewrite insert_buckets by exact W. cbv zeta.
  rewrite chain_order_insert by exact Hlt.
  rewrite (chain_order_split _ (HashMap._buckets m) Hlt) at 1.
  rewrite (stored_bucket k m W) in S.
  unfold upsert.
  destruct (HashMap.update_chain k v _) as [b'|] eqn:E.
  - apply update_chain_Some in E as [_ E]. contradiction.
  - rewrite !fmap_app. simpl.
    rewrite <- (app_assoc _ [k]). simpl.
    rewrite <- !Permutation_middle. reflexivity.
Qed.

Lemma insert_size_old k v m :
  wf m -> stored k m ->
  HashMap._size (HashMap._insertWithoutResize k v m) = HashMap._size m.
Proof.
  intros W S. rewrite insert_size by exact W.
  apply (stored_bucket k m W) in S.
  destruct (HashMap.update_chain k v _) as [b'|] eqn:E; [reflexivity|].
  apply update_chain_None in E. contradiction.
Qed.

Lemma insert_size_new k v m :
  wf m -> ~ stored k m ->
  HashMap._size (HashMap._insertWithoutResize k v m) = HashMap._size m + 1.
Proof.
  intros W S. rewrite insert_size by exact W.
  rewrite (stored_bucket k m W) in S.
  destruct (HashMap.update_chain k v _) as [b'|] eqn:E; [|reflexivity].
  apply update_chain_Some in E as [_ E]. contradiction.
Qed.

Lemma insert_stored k v m k' :
  wf m ->
  stored k' (HashMap._insertWithoutResize k v m) <-> k' = k \/ stored k' m.
Proof.
  intros W. unfold stored at 1.
  destruct (decide (stored k m)) as [S|S].
  - rewrite insert_keys_old by assumption. fold (stored k' m).
    split; [auto|]. intros [->|H]; assumption.
  - rewrite insert_keys_new by assumption. rewrite elem_of_cons. reflexivity.
Qed.

(** The bare insert keeps the representation invariant. *)
Lemma insert_wf k v m :
  wf m -> wf (HashMap._insertWithoutResize k v m).
Proof.
  intros W. pose proof (hash_index_lt m k W) as Hlt.
  constructor.
  - rewrite insert_capacity. apply W.
  - rewrite insert_capacity, insert_buckets by exact W. cbv zeta.
    rewrite length_insert. apply W.
  - rewrite insert_loadFactor. apply W.
  - intros i e. rewrite insert_hash, insert_buckets by exact W. cbv zeta.
    destruct (decide (Z.to_nat (HashMap._hash m k) = i)) as [<-|NE].
    + rewrite bucket_at_insert_eq by exact Hlt. intros He.
      apply upsert_elem in He as [->|He]; [reflexivity|].
      apply (wf_placed m W). exact He.
    + rewrite bucket_at_insert_ne by exact NE. apply (wf_placed m W).
  - destruct (decide (stored k m)) as [S|S].
    + rewrite insert_keys_old by assumption. apply W.
    + rewrite insert_keys_new by assumption.
      apply NoDup_cons. split; [exact S|apply W].
  - rewrite <- (length_fmap HashMap.key).
    destruct (decide (stored k m)) as [S|S].
    + rewrite insert_keys_old, insert_size_old by assumption.
      rewrite length_fmap. apply W.
    + rewrite insert_keys_new, insert_size_new by assumption.
      simpl. rewrite length_fmap, (wf_size m W). lia.
Qed.

(** ** Resize *)

Lemma rehash_chain_order bs m0 :
  fold_left HashMap.rehash_bucket bs m0
  = fold_left (fun this item =>
                 HashMap._insertWithoutResize (HashMap.key item) (HashMap.value item) this)
              (chain_order bs) m0.
Proof.
  revert m0. induction bs as [|b bs IH]; intros m0; [reflexivity|].
  rewrite chain_order_cons, fold_left_app. simpl. rewrite IH.
  destruct b; reflexivity.
Qed.

(** Re-inserting entries with pairwise distinct keys, none of them
    stored yet, into a well-formed table. *)
Lemma rehash_entries (l : list HashMap.Entry) :
  forall m0,
    wf m0 ->
    NoDup (HashMap.key <$> l) ->
    (forall k, k ∈ HashMap.key <$> l -> ~ stored k m0) ->
    let m' := fold_left (fun this item =>
                 HashMap._insertWithoutResize (HashMap.key item) (HashMap.value item) this)
                        l m0 in
    wf m'
    /\ HashMap._capacity m' = HashMap._capacity m0
    /\ HashMap._resizeCount m' = HashMap._resizeCount m0
    /\ HashMap._size m' = HashMap._size m0 + Z.of_nat (length l)
    /\ (forall e, e ∈ l -> HashMap.get (HashMap.key e) m' = HashMap.value e)
    /\ (forall k, k ∉ HashMap.key <$> l -> HashMap.get k m' = HashMap.get k m0)
    /\ (forall k, stored k m' <-> k ∈ HashMap.key <$> l \/ stored k m0).
Proof.
  induction l as [|e l IH]; intros m0 W ND Hfresh; cbn zeta.
  - simpl. split_and!; try tauto; try lia.
    + intros e He. inversion He.
    + intros k. split; [tauto|]. intros [H|H]; [inversion H|exact H].
  - rewrite fmap_cons in ND. apply NoDup_cons in ND as [Hnotin ND].
    assert (Hnew : ~ stored (HashMap.key e) m0) by (apply Hfresh; left).
    set (m1 := HashMap._insertWithoutResize (HashMap.key e) (HashMap.value e) m0).
    assert (W1 : wf m1) by (apply insert_wf, W).
    assert (Hfresh1 : forall k, k ∈ HashMap.key <$> l -> ~ stored k m1).
    { intros k Hk Hs. apply insert_stored in Hs as [->|Hs]; [contradiction| |exact W].
      apply (Hfresh k); [right; exact Hk|exact Hs]. }
    destruct (IH m1 W1 ND Hfresh1) as (Wf & Hc & Hr & Hsz & Hin & Hout & Hst).
    simpl. fold m1. split_and!.
    + exact Wf.
    + rewrite Hc. apply insert_capacity.
    + rewrite Hr. apply insert_resizeCount.
    + rewrite Hsz. unfold m1. rewrite insert_size_new by assumption. lia.
    + intros e0 He0. apply elem_of_cons in He0 as [->|He0].
      * rewrite Hout by exact Hnotin. unfold m1. rewrite insert_get by exact W.
        destruct (decide (HashMap.key e = HashMap.key e)); congruence.
      * apply Hin, He0.
    + intros k Hk. apply not_elem_of_cons in Hk as [Hk1 Hk2].
      rewrite Hout by exact Hk2. unfold m1. rewrite insert_get by exact W.
      destruct (decide (k = HashMap.key e)); congruence.
    + intros k. rewrite Hst. unfold m1. rewrite insert_stored by exact W.
      rewrite elem_of_cons. tauto.
Qed.

(** A freshly allocated table is well formed and stores nothing. *)
Lemma fresh_wf (c r : Z) :
  0 < c ->
  wf {| HashMap._buckets := replicate (Z.to_nat c) None;
        HashMap._capacity := c;
        HashMap._loadFactor := 3 # 4;
        HashMap._size := 0;
        HashMap._resizeCount := r |}.
Proof.
  intros Hc. constructor; simpl.
  - exact Hc.
  - apply length_replicate.
  - reflexivity.
  - intros i e He. unfold bucket_at in He.
    destruct (replicate (Z.to_nat c) None !! i) as [[b|]|] eqn:E;
      try (inversion He; fail).
    apply lookup_replicate in E as [E _]. discriminate.
  - rewrite chain_order_replicate. constructor.
  - rewrite chain_order_replicate. reflexivity.
Qed.

Lemma fresh_stored (c r : Z) (q : Q) (k : jsstring) :
  ~ stored k {| HashMap._buckets := replicate (Z.to_nat c) None;
                HashMap._capacity := c;
                HashMap._loadFactor := q;
                HashMap._size := 0;
                HashMap._resizeCount := r |}.
Proof.
  unfold stored; simpl. rewrite chain_order_replicate. intros H. inversion H.
Qed.

(** What a resize does to a well-formed table. *)
Lemma resize_spec (m : HashMap.t) :
  wf m ->
  wf (HashMap._resize m)
  /\ HashMap._capacity (HashMap._resize m) = 2 * HashMap._capacity m
  /\ HashMap._resizeCount (HashMap._resize m) = HashMap._resizeCount m + 1
  /\ HashMap._size (HashMap._resize m) = HashMap._size m
  /\ (forall k, HashMap.get k (HashMap._resize m) = HashMap.get k m)
  /\ (forall k, stored k (HashMap._resize m) <-> stored k m).
Proof.
  intros W. unfold HashMap._resize. cbv zeta.
  rewrite rehash_chain_order. rewrite (wf_loadFactor m W).
  assert (Hc : 0 < HashMap._capacity m * 2) by (pose proof (wf_capacity m W); lia).
  pose proof (fresh_wf _ (HashMap._resizeCount m + 1) Hc) as W0.
  destruct (rehash_entries (chain_order (HashMap._buckets m)) _ W0 (wf_unique m W))
    as (Wf & Hcap & Hr & Hsz & Hin & Hout & Hst).
  { intros k _. apply fresh_stored. }
  cbv zeta in *. simpl in Hcap, Hr, Hsz.
  split; [exact Wf|]. split; [rewrite Hcap; lia|]. split; [exact Hr|].
  split; [rewrite Hsz, (wf_size m W); lia|]. split.
  - intros k. destruct (decide (stored k m)) as [Hs|Hs].
    + unfold stored in Hs. apply list_elem_of_fmap in Hs as (e & -> & He).
      rewrite (Hin e He). symmetry. apply get_stored; assumption.
    + rewrite (Hout k Hs). rewrite (get_absent k m W Hs).
      apply get_absent; [exact W0|apply fresh_stored].
  - intros k. rewrite Hst. split; [|left; assumption].
    intros [H|H]; [exact H|]. exfalso. revert H. apply fresh_stored.
Qed.

(** ** The load factor test *)

Lemma load_test (s c : Z) :
  0 < c ->
  Qle_bool (inject_Z s / inject_Z c) (3 # 4) = (4 * s <=? 3 * c).
Proof.
  intros Hc. destruct c as [|p|p]; try lia.
  unfold Qle_bool, Qdiv, Qmult, Qinv, inject_Z; simpl.
  f_equal; lia.
Qed.

Lemma needsResize_true (m : HashMap.t) :
  wf m ->
  HashMap._needsResize m = true <-> 3 * HashMap._capacity m < 4 * HashMap._size m.
Proof.
  intros W. unfold HashMap._needsResize.
  rewrite (wf_loadFactor m W), load_test by apply W.
  destruct (Z.leb_spec (4 * HashMap._size m) (3 * HashMap._capacity m)); simpl;
    split; intros; try discriminate; try reflexivity; lia.
Qed.

Lemma needsResize_false (m : HashMap.t) :
  wf m ->
  HashMap._needsResize m = false <-> 4 * HashMap._size m <= 3 * HashMap._capacity m.
Proof.
  intros W. pose proof (needsResize_true m W) as H.
  destruct (HashMap._needsResize m); split; intros; try discriminate; try reflexivity.
  - destruct H as [H _]. specialize (H eq_refl). lia.
  - destruct (Z.le_gt_cases (4 * HashMap._size m) (3 * HashMap._capacity m)); [assumption|].
    destruct H as [_ H]. discriminate H. lia.
Qed.

(** ** [set] *)

Lemma set_gate k v m :
  HashMap.set (Some k) v m = Ok (HashMap._insertWithoutResize k v (gate m)).
Proof. reflexivity. Qed.

(** The resize gate of [set]: afterwards the load factor is at most 0.75
    and the contents are what they were. *)
Lemma gate_spec (m : HashMap.t) :
  wf m -> load_bounded m ->
  wf (gate m)
  /\ 4 * HashMap._size (gate m) <= 3 * HashMap._capacity (gate m)
  /\ HashMap._size (gate m) = HashMap._size m
  /\ (forall k, HashMap.get k (gate m) = HashMap.get k m)
  /\ (forall k, stored k (gate m) <-> stored k m)
  /\ HashMap._capacity (gate m)
     = (if HashMap._needsResize m then 2 * HashMap._capacity m else HashMap._capacity m)
  /\ HashMap._resizeCount (gate m)
     = (if HashMap._needsResize m then HashMap._resizeCount m + 1
        else HashMap._resizeCount m).
Proof.
  intros W B. unfold gate, load_bounded in *.
  destruct (HashMap._needsResize m) eqn:E.
  - destruct (resize_spec m W) as (W' & Hc & Hr & Hs & Hg & Hst).
    pose proof (wf_capacity m W).
    split_and!; try assumption. rewrite Hc, Hs. lia.
  - apply needsResize_false in E; [|exact W].
    split_and!; try assumption; try reflexivity.
Qed.

(** ** [remove] *)

Lemma get_absent_any k m :
  ~ stored k m -> HashMap.get k m = VUndefined.
Proof.
  intros H. rewrite get_scan. apply scan_notin. intros Hin. apply H.
  unfold stored. apply list_elem_of_fmap in Hin as (e & -> & He).
  apply list_elem_of_fmap. exists e. split; [reflexivity|].
  apply elem_of_chain_order. eauto.
Qed.

Lemma has_absent k m : ~ stored k m -> HashMap.has k m = false.
Proof.
  intros H. unfold HashMap.has. rewrite get_absent_any by exact H. reflexivity.
Qed.

Lemma has_stored k m : HashMap.has k m = true -> stored k m.
Proof.
  intros H. destruct (decide (stored k m)) as [S|S]; [exact S|].
  rewrite has_absent in H by exact S. discriminate.
Qed.

Lemma remove_has_false k m :
  HashMap.has k m = false -> HashMap.remove k m = (false, m).
Proof.
  intros H. unfold HashMap.remove. rewrite H. reflexivity.
Qed.

Lemma remove_present k m :
  wf m -> HashMap.has k m = true ->
  exists m',
    HashMap.remove k m = (true, m')
    /\ wf m'
    /\ HashMap._size m' = HashMap._size m - 1
    /\ HashMap._capacity m' = HashMap._capacity m
    /\ HashMap._resizeCount m' = HashMap._resizeCount m
    /\ ~ stored k m'.
Proof.
  intros W Hhas. pose proof (has_stored k m Hhas) as Hst.
  apply (stored_bucket k m W) in Hst.
  unfold HashMap.remove. rewrite Hhas.
  unfold bucket_at in Hst.
  destruct (HashMap._buckets m !! Z.to_nat (HashMap._hash m k)) as [[b|]|] eqn:Hb;
    try (inversion Hst; fail).
  destruct (find_index_Some k b 0%nat Hst) as (i & x & Hfi & Hx & Hkx).
  rewrite Hfi. simpl.
  pose proof (lookup_lt_Some _ _ _ Hb) as Hlt.
  rewrite array_put_lt by exact Hlt.
  pose proof (swap_pop_perm i x b Hx) as Hperm.
  eexists. split; [reflexivity|].
  assert (Hkeys : k :: (HashMap.key <$> chain_order
                          (<[Z.to_nat (HashMap._hash m k) := Some (HashMap.swap_pop i b)]>
                             (HashMap._buckets m)))
                  ≡ₚ HashMap.key <$> chain_order (HashMap._buckets m)).
  { rewrite chain_order_insert by exact Hlt.
    rewrite (chain_order_split _ (HashMap._buckets m) Hlt) at 1.
    unfold bucket_at. rewrite Hb. rewrite !fmap_app.
    assert (Hpk : HashMap.key <$> b ≡ₚ k :: (HashMap.key <$> HashMap.swap_pop i b)).
    { rewrite <- Hkx, <- fmap_cons. apply fmap_Permutation. symmetry. exact Hperm. }
    rewrite Hpk. simpl. rewrite <- Permutation_middle. reflexivity. }
  pose proof (wf_unique m W) as ND. rewrite <- Hkeys in ND.
  apply NoDup_cons in ND as [Hnotin ND].
  split_and!; simpl; try reflexivity.
  - constructor; simpl.
    + apply W.
    + rewrite length_insert. apply W.
    + apply W.
    + intros j e.
      change (HashMap._hash _ (HashMap.key e)) with (HashMap._hash m (HashMap.key e)).
      destruct (decide (Z.to_nat (HashMap._hash m k) = j)) as [<-|NE].
      * rewrite bucket_at_insert_eq by exact Hlt. intros He.
        apply (wf_placed m W). unfold bucket_at. rewrite Hb.
        apply (elem_of_Permutation_proper e _ _ Hperm). right. exact He.
      * rewrite bucket_at_insert_ne by exact NE. apply (wf_placed m W).
    + exact ND.
    + rewrite (wf_size m W). rewrite <- !(length_fmap HashMap.key).
      rewrite <- Hkeys. simpl. lia.
  - exact Hnotin.
Qed.

Lemma clear_wf (m : HashMap.t) : wf m -> wf (HashMap.clear m).
Proof.
  intros W. unfold HashMap.clear. rewrite (wf_loadFactor m W).
  apply fresh_wf. apply W.
Qed.

(** ** Reachable states *)

Lemma reachable_inv (m : HashMap.t) :
  reachable m -> wf m /\ load_bounded m.
Proof.
  induction 1 as [c Hc| |k v m m' _ [W B] Hset|k m _ [W B]|m _ [W B]].
  - split; [apply fresh_wf; exact Hc|]. unfold load_bounded; simpl. lia.
  - split; [apply (fresh_wf 16); lia|]. unfold load_bounded; simpl. lia.
  - rewrite set_gate in Hset. inversion Hset; subst; clear Hset.
    destruct (gate_spec m W B) as (Wg & Hload & _).
    split; [apply insert_wf, Wg|].
    unfold load_bounded. rewrite insert_capacity, insert_size by exact Wg.
    destruct (HashMap.update_chain _ _ _); lia.
  - destruct (HashMap.has k m) eqn:Hhas.
    + destruct (remove_present k m W Hhas) as (m' & -> & W' & Hs & Hc & _).
      simpl. split; [exact W'|]. unfold load_bounded in *. lia.
    + rewrite remove_has_false by exact Hhas. simpl. auto.
  - split; [apply clear_wf, W|].
    unfold load_bounded; simpl. pose proof (wf_capacity m W). lia.
Qed.

Lemma after_sets_reachable kvs m :
  reachable m -> reachable (after_sets kvs m).
Proof.
  revert m. induction kvs as [|[k v] kvs IH]; intros m R; [exact R|].
  simpl. apply IH. apply (reach_set k v m); [exact R|reflexivity].
Qed.

(** ** Iteration *)

Lemma push_all {A : Type} (f : HashMap.Entry -> A) (b : list HashMap.Entry) :
  forall out, fold_left (fun out item => out ++ [f item]) b out = out ++ (f <$> b).
Proof.
  induction b as [|e b IH]; intros out; simpl.
  - rewrite app_nil_r. reflexivity.
  - rewrite IH, <- app_assoc. reflexivity.
Qed.

Lemma collect_chain_order {A : Type} (f : HashMap.Entry -> A) (m : HashMap.t) :
  HashMap.collect f m = f <$> chain_order (HashMap._buckets m).
Proof.
  unfold HashMap.collect.
  enough (H : forall bs out,
             fold_left
               (fun out bucket =>
                  match bucket with
                  | Some bucket => fold_left (fun out item => out ++ [f item]) bucket out
                  | None => out
                  end) bs out
             = out ++ (f <$> chain_order bs)) by apply (H _ []).
  induction bs as [|b bs IH]; intros out; simpl.
  - rewrite app_nil_r. reflexivity.
  - rewrite IH, chain_order_cons, fmap_app, app_assoc.
    destruct b as [b|]; simpl; [rewrite push_all|rewrite app_nil_r]; reflexivity.
Qed.

Lemma chain_order_by_bucket bs : chain_order bs = by_bucket_then_chain bs.
Proof.
  unfold by_bucket_then_chain. induction bs as [|b bs IH]; [reflexivity|].
  rewrite chain_order_cons, IH. simpl.
  rewrite <- fmap_S_seq, <- list_fmap_compose.
  change (bucket_at 0 (b :: bs)) with (default [] (Some (default [] b))).
  destruct b; reflexivity.
Qed.

Lemma load_le (s c : Z) :
  0 < c -> (inject_Z s / inject_Z c <= 3 # 4)%Q <-> 4 * s <= 3 * c.
Proof.
  intros Hc. rewrite <- Qle_bool_iff, load_test by exact Hc. apply Z.leb_le.
Qed.

(** * The claims *)

(** ** Load factor and resize trigger *)

(** C1, as the code has it: in every reachable state, a [set] call that
    inserts a new key succeeds and adds one entry; right after it the
    load factor without the new entry, (length() - 1) / capacity, is at
    most 0.75.  When the load factor exceeds 0.75 at the call, the
    capacity is doubled and all entries are rehashed before the new
    entry is inserted (every other key reads as before); otherwise the
    capacity is unchanged. *)
Theorem set_new_key_load (m : HashMap.t) (k : jsstring) (v : Value) :
  reachable m -> ~ stored k m ->
  exists m',
    HashMap.set (Some k) v m = Ok m'
    /\ HashMap.length m' = HashMap.length m + 1
    /\ (inject_Z (HashMap.length m' - 1) / inject_Z (HashMap._capacity m') <= 3 # 4)%Q
    /\ (HashMap._needsResize m = true ->
        m' = HashMap._insertWithoutResize k v (HashMap._resize m)
        /\ HashMap._capacity m' = 2 * HashMap._capacity m
        /\ forall k', k' <> k -> HashMap.get k' m' = HashMap.get k' m)
    /\ (HashMap._needsResize m = false ->
        HashMap._capacity m' = HashMap._capacity m).
Proof.
  intros R Hnew. destruct (reachable_inv m R) as [W B].
  destruct (gate_spec m W B) as (Wg & Hload & Hsz & Hget & Hst & Hcap & _).
  exists (HashMap._insertWithoutResize k v (gate m)).
  assert (Hnew' : ~ stored k (gate m)) by (rewrite Hst; exact Hnew).
  split; [reflexivity|]. unfold HashMap.length.
  rewrite insert_size_new, insert_capacity by assumption.
  split; [lia|]. split.
  - apply load_le; [apply Wg|]. lia.
  - rewrite Hcap. unfold gate. split; intros E; rewrite E; [|reflexivity].
    split; [reflexivity|]. split; [reflexivity|].
    intros k' NE. destruct (resize_spec m W) as (W' & _ & _ & _ & Hg & _).
    rewrite insert_get by exact W'.
    destruct (decide (k' = k)); [contradiction|apply Hg].
Qed.

Lemma set_new_key_load_witness :
  reachable twelve /\ ~ stored (str "moon") twelve
  /\ exists m',
    HashMap.set (Some (str "moon")) (VStr (str "silver")) twelve = Ok m'
    /\ HashMap.length m' = HashMap.length twelve + 1
    /\ (inject_Z (HashMap.length m' - 1) / inject_Z (HashMap._capacity m') <= 3 # 4)%Q
    /\ (HashMap._needsResize twelve = true ->
        m' = HashMap._insertWithoutResize (str "moon") (VStr (str "silver"))
               (HashMap._resize twelve)
        /\ HashMap._capacity m' = 2 * HashMap._capacity twelve
        /\ forall k', k' <> str "moon" -> HashMap.get k' m' = HashMap.get k' twelve)
    /\ (HashMap._needsResize twelve = false ->
        HashMap._capacity m' = HashMap._capacity twelve).
Proof.
  assert (R : reachable twelve) by (apply after_sets_reachable, reach_default).
  assert (N : ~ stored (str "moon") twelve)
    by (decide_stored).
  split; [exact R|]. split; [exact N|].
  apply (set_new_key_load twelve (str "moon") (VStr (str "silver")) R N).
Defined.

(** C1 as stated fails on the source's own test run: with twelve entries
    at capacity 16 the insertion of ["moon"] would cross the threshold,
    yet the capacity stays 16 and the load factor afterwards is 13/16. *)
Lemma load_factor_exceeded_after_insert :
  reachable twelve
  /\ ~ stored (str "moon") twelve
  /\ would_cross twelve = true
  /\ HashMap.set (Some (str "moon")) (VStr (str "silver")) twelve = Ok thirteen
  /\ HashMap._capacity thirteen = 16
  /\ HashMap.length thirteen = 13
  /\ ~ (load_factor thirteen <= 3 # 4)%Q.
Proof.
  split; [apply after_sets_reachable, reach_default|].
  split; [decide_stored|].
  split; [vm_compute; reflexivity|].
  split; [reflexivity|].
  split; [vm_compute; reflexivity|].
  split; [vm_compute; reflexivity|].
  rewrite <- Qle_bool_iff. vm_compute. discriminate.
Qed.

(** C2, as the code has it: at capacity 16, a [set] with a new key on a
    table of 12 entries does not resize (12/16 does not exceed 0.75)
    and leaves 13 entries at capacity 16; a [set] with a new key on a
    table of 13 entries (13/16 = 0.8125 > 0.75) doubles the capacity
    exactly once, to 32, before the insert completes. *)
Theorem resize_trigger_at_16 (m : HashMap.t) (k : jsstring) (v : Value) :
  reachable m -> HashMap._capacity m = 16 -> ~ stored k m ->
  exists m',
    HashMap.set (Some k) v m = Ok m'
    /\ (HashMap.length m = 12 ->
        HashMap._capacity m' = 16
        /\ HashMap._resizeCount m' = HashMap._resizeCount m
        /\ HashMap.length m' = 13)
    /\ (HashMap.length m = 13 ->
        HashMap._capacity m' = 32
        /\ HashMap._resizeCount m' = HashMap._resizeCount m + 1
        /\ HashMap.length m' = 14).
Proof.
  intros R Hc Hnew. destruct (reachable_inv m R) as [W B].
  destruct (gate_spec m W B) as (Wg & _ & Hsz & _ & Hst & Hcap & Hrc).
  exists (HashMap._insertWithoutResize k v (gate m)).
  assert (Hnew' : ~ stored k (gate m)) by (rewrite Hst; exact Hnew).
  split; [reflexivity|]. unfold HashMap.length.
  rewrite insert_size_new, insert_capacity, insert_resizeCount by assumption.
  rewrite Hcap, Hrc, Hsz. split; intros Hlen.
  - assert (E : HashMap._needsResize m = false) by (apply needsResize_false; [exact W|lia]).
    rewrite E. lia.
  - assert (E : HashMap._needsResize m = true) by (apply needsResize_true; [exact W|lia]).
    rewrite E. lia.
Qed.

Lemma resize_trigger_at_16_witness :
  reachable thirteen /\ HashMap._capacity thirteen = 16 /\ ~ stored (str "nut") thirteen
  /\ exists m',
    HashMap.set (Some (str "nut")) (VStr (str "tan")) thirteen = Ok m'
    /\ (HashMap.length thirteen = 12 ->
        HashMap._capacity m' = 16
        /\ HashMap._resizeCount m' = HashMap._resizeCount thirteen
        /\ HashMap.length m' = 13)
    /\ (HashMap.length thirteen = 13 ->
        HashMap._capacity m' = 32
        /\ HashMap._resizeCount m' = HashMap._resizeCount thirteen + 1
        /\ HashMap.length m' = 14).
Proof.
  assert (R : reachable thirteen)
    by (apply after_sets_reachable, after_sets_reachable, reach_default).
  assert (C : HashMap._capacity thirteen = 16) by (vm_compute; reflexivity).
  assert (N : ~ stored (str "nut") thirteen)
    by (decide_stored).
  split; [exact R|]. split; [exact C|]. split; [exact N|].
  apply (resize_trigger_at_16 thirteen (str "nut") (VStr (str "tan")) R C N).
Defined.

(** C2 as stated fails: the source's test table holds exactly 12
    distinct keys at capacity 16, and the [set] with the 13th key
    ["moon"] triggers no doubling. *)
Lemma thirteenth_key_does_not_resize :
  reachable twelve
  /\ HashMap._capacity twelve = 16
  /\ HashMap.length twelve = 12
  /\ length (HashMap.keys twelve) = 12%nat
  /\ ~ stored (str "moon") twelve
  /\ HashMap.set (Some (str "moon")) (VStr (str "silver")) twelve = Ok thirteen
  /\ HashMap._capacity thirteen <> 32
  /\ HashMap._resizeCount thirteen = 0.
Proof.
  split; [apply after_sets_reachable, reach_default|].
  split; [vm_compute; reflexivity|].
  split; [vm_compute; reflexivity|].
  split; [vm_compute; reflexivity|].
  split; [decide_stored|].
  split; [reflexivity|].
  split; [vm_compute; discriminate|vm_compute; reflexivity].
Qed.

(** ** Updates *)

(** C3, as the code has it: in every reachable state, [set(k, v)] for a
    stored key [k] is an update that does not change the size; it passes
    the same resize check as any other [set], so the capacity doubles
    when the load factor exceeds 0.75 at the call and is unchanged
    otherwise. *)
Theorem set_stored_key (m : HashMap.t) (k : jsstring) (v : Value) :
  reachable m -> stored k m ->
  exists m',
    HashMap.set (Some k) v m = Ok m'
    /\ HashMap.length m' = HashMap.length m
    /\ HashMap._capacity m'
       = (if HashMap._needsResize m then 2 * HashMap._capacity m
          else HashMap._capacity m).
Proof.
  intros R Hs. destruct (reachable_inv m R) as [W B].
  destruct (gate_spec m W B) as (Wg & _ & Hsz & _ & Hst & Hcap & _).
  exists (HashMap._insertWithoutResize k v (gate m)).
  split; [reflexivity|]. unfold HashMap.length.
  rewrite insert_capacity, insert_size_old; [auto|exact Wg|apply Hst, Hs].
Qed.

Lemma set_stored_key_witness :
  reachable twelve /\ stored (str "kite") twelve
  /\ exists m',
    HashMap.set (Some (str "kite")) (VStr (str "blue")) twelve = Ok m'
    /\ HashMap.length m' = HashMap.length twelve
    /\ HashMap._capacity m'
       = (if HashMap._needsResize twelve then 2 * HashMap._capacity twelve
          else HashMap._capacity twelve).
Proof.
  assert (R : reachable twelve) by (apply after_sets_reachable, reach_default).
  assert (S : stored (str "kite") twelve) by decide_stored.
  split; [exact R|]. split; [exact S|].
  apply (set_stored_key twelve (str "kite") (VStr (str "blue")) R S).
Defined.

(** C3 as stated fails: with thirteen entries at capacity 16, updating
    the stored key ["kite"] doubles the capacity. *)
Lemma update_of_stored_key_resizes :
  reachable thirteen
  /\ stored (str "kite") thirteen
  /\ HashMap._capacity thirteen = 16
  /\ exists m',
    HashMap.set (Some (str "kite")) (VStr (str "blue")) thirteen = Ok m'
    /\ HashMap._capacity m' = 32.
Proof.
  split; [apply after_sets_reachable, after_sets_reachable, reach_default|].
  split; [decide_stored|].
  split; [vm_compute; reflexivity|].
  eexists. split; [reflexivity|vm_compute; reflexivity].
Qed.

(** ** Round trip *)

(** What [set] stores is what [get] reads back, and [has] tests it
    against [undefined]. *)
Lemma set_reads_back (m : HashMap.t) (k : jsstring) (v : Value) :
  reachable m ->
  exists m',
    HashMap.set (Some k) v m = Ok m'
    /\ HashMap.get k m' = v
    /\ HashMap.has k m' = strict_ne_undefined v.
Proof.
  intros R. destruct (reachable_inv m R) as [W B].
  destruct (gate_spec m W B) as (Wg & _).
  exists (HashMap._insertWithoutResize k v (gate m)).
  split; [reflexivity|].
  assert (G : HashMap.get k (HashMap._insertWithoutResize k v (gate m)) = v).
  { rewrite insert_get by exact Wg. destruct (decide (k = k)); congruence. }
  split; [exact G|]. unfold HashMap.has. rewrite G. reflexivity.
Qed.

(** The round trip on every input: in every reachable state and for
    every key [k] and value [v], [set(k, v)] succeeds and right after
    it [get(k)] is [v].  [has(k)] is true for every [v] other than
    [undefined]; for [undefined] it is false although the key exists,
    which is where [has] departs from its docstring ("True if key
    exists, false otherwise"). *)
Theorem set_then_get_has (m : HashMap.t) (k : jsstring) (v : Value) :
  reachable m ->
  exists m',
    HashMap.set (Some k) v m = Ok m'
    /\ HashMap.get k m' = v
    /\ (HashMap.has k m' = true <-> v <> VUndefined).
Proof.
  intros R. destruct (set_reads_back m k v R) as (m' & Hset & G & H).
  exists m'. split; [exact Hset|]. split; [exact G|]. rewrite H.
  destruct v; simpl; split; intros; congruence.
Qed.

Lemma set_then_get_has_witness :
  reachable twelve
  /\ exists m',
    HashMap.set (Some (str "moon")) (VStr (str "silver")) twelve = Ok m'
    /\ HashMap.get (str "moon") m' = VStr (str "silver")
    /\ (HashMap.has (str "moon") m' = true <-> VStr (str "silver") <> VUndefined).
Proof.
  assert (R : reachable twelve) by (apply after_sets_reachable, reach_default).
  split; [exact R|].
  apply (set_then_get_has twelve (str "moon") (VStr (str "silver")) R).
Defined.

(** C4: the code breaks the round trip at [set("k", undefined)] on a
    new table.  The key exists afterwards: [keys()] lists it,
    [length()] counts it, and [get("k")] reads the [undefined] that was
    set.  Yet [has("k")] is false, against the docstring of [has]
    ("True if key exists, false otherwise"). *)
Lemma has_false_after_set_undefined :
  reachable (HashMap.constructor None)
  /\ HashMap.set (Some (str "k")) VUndefined (HashMap.constructor None)
     = Ok with_undefined
  /\ HashMap.keys with_undefined = [str "k"]
  /\ HashMap.length with_undefined = 1
  /\ HashMap.get (str "k") with_undefined = VUndefined
  /\ HashMap.has (str "k") with_undefined = false.
Proof.
  split; [apply reach_default|].
  split; [reflexivity|].
  split; [vm_compute; reflexivity|].
  split; [vm_compute; reflexivity|].
  split; vm_compute; reflexivity.
Qed.

(** ** Removal *)

(** [set] then [remove] on every input: in every reachable state,
    after [set(k, v)] the call [remove(k)] leaves [has(k)] false; for
    every [v] other than [undefined] it returns true and [length()] is
    exactly one less than just after the [set].  For a key that is not
    stored, [remove] returns false and leaves the table, so its
    [length()], unchanged. *)
Theorem set_then_remove (m : HashMap.t) (k : jsstring) (v : Value) :
  reachable m ->
  (exists m',
      HashMap.set (Some k) v m = Ok m'
      /\ HashMap.has k (HashMap.remove k m').2 = false
      /\ (v <> VUndefined ->
          (HashMap.remove k m').1 = true
          /\ HashMap.length (HashMap.remove k m').2 = HashMap.length m' - 1))
  /\ (~ stored k m ->
      HashMap.remove k m = (false, m)
      /\ HashMap.length (HashMap.remove k m).2 = HashMap.length m).
Proof.
  intros R. split.
  - destruct (set_reads_back m k v R) as (m' & Hset & Hget & Hhas).
    exists m'. split; [exact Hset|].
    assert (R' : reachable m') by (apply (reach_set k v m m' R Hset)).
    destruct (reachable_inv m' R') as [W' _].
    destruct (HashMap.has k m') eqn:E.
    + destruct (remove_present k m' W' E) as (m2 & -> & W2 & Hsz & _ & _ & Hgone).
      simpl. split; [apply has_absent, Hgone|].
      intros _. split; [reflexivity|exact Hsz].
    + rewrite remove_has_false by exact E. simpl. split; [exact E|].
      intros Hv. rewrite Hhas in E. destruct v; [contradiction|discriminate..].
  - intros Habs. rewrite remove_has_false by (apply has_absent, Habs).
    split; reflexivity.
Qed.

Lemma set_then_remove_witness :
  reachable twelve
  /\ (exists m',
         HashMap.set (Some (str "moon")) (VStr (str "silver")) twelve = Ok m'
         /\ HashMap.has (str "moon") (HashMap.remove (str "moon") m').2 = false
         /\ (VStr (str "silver") <> VUndefined ->
             (HashMap.remove (str "moon") m').1 = true
             /\ HashMap.length (HashMap.remove (str "moon") m').2
                = HashMap.length m' - 1))
  /\ (~ stored (str "moon") twelve ->
      HashMap.remove (str "moon") twelve = (false, twelve)
      /\ HashMap.length (HashMap.remove (str "moon") twelve).2
         = HashMap.length twelve).
Proof.
  assert (R : reachable twelve) by (apply after_sets_reachable, reach_default).
  split; [exact R|].
  apply (set_then_remove twelve (str "moon") (VStr (str "silver")) R).
Defined.

(** C5: the code breaks removal at [set("k", undefined); remove("k")]
    on a new table.  The pair is stored ([keys()] lists the key and
    [length()] is 1), yet [remove("k")] returns false and removes
    nothing: the key is still listed and [length()] is still 1, not 0,
    against the docstring of [remove] ("Removes a key-value pair",
    "True if removed, false if key not found").  [remove] is gated on
    [has], which is false here. *)
Lemma remove_keeps_undefined_entry :
  reachable (HashMap.constructor None)
  /\ HashMap.set (Some (str "k")) VUndefined (HashMap.constructor None)
     = Ok with_undefined
  /\ HashMap.keys with_undefined = [str "k"]
  /\ HashMap.length with_undefined = 1
  /\ HashMap.has (str "k") with_undefined = false
  /\ HashMap.remove (str "k") with_undefined = (false, with_undefined)
  /\ HashMap.keys (HashMap.remove (str "k") with_undefined).2 = [str "k"]
  /\ HashMap.length (HashMap.remove (str "k") with_undefined).2 = 1
  /\ HashMap.length (HashMap.remove (str "k") with_undefined).2
     <> HashMap.length with_undefined - 1.
Proof.
  split; [apply reach_default|].
  split; [reflexivity|].
  split; [vm_compute; reflexivity|].
  split; [vm_compute; reflexivity|].
  split; [vm_compute; reflexivity|].
  split; [vm_compute; reflexivity|].
  split; [vm_compute; reflexivity|].
  split; [vm_compute; reflexivity|].
  vm_compute. discriminate.
Qed.

(** ** Resize *)

(** C6: whenever a resize runs on a reachable table, the new capacity
    is exactly twice the old one, every key stored before is stored
    afterwards and reads the same value, and the size is unchanged. *)
Theorem resize_doubles_and_keeps (m : HashMap.t) :
  reachable m ->
  HashMap._capacity (HashMap._resize m) = 2 * HashMap._capacity m
  /\ (forall k, stored k m ->
                stored k (HashMap._resize m)
                /\ HashMap.get k (HashMap._resize m) = HashMap.get k m)
  /\ HashMap.length (HashMap._resize m) = HashMap.length m.
Proof.
  intros R. destruct (reachable_inv m R) as [W _].
  destruct (resize_spec m W) as (_ & Hc & _ & Hs & Hg & Hst).
  split; [exact Hc|]. split; [|exact Hs].
  intros k Hk. split; [apply Hst, Hk|apply Hg].
Qed.

Lemma resize_doubles_and_keeps_witness :
  reachable thirteen
  /\ HashMap._capacity (HashMap._resize thirteen) = 2 * HashMap._capacity thirteen
  /\ (forall k, stored k thirteen ->
                stored k (HashMap._resize thirteen)
                /\ HashMap.get k (HashMap._resize thirteen) = HashMap.get k thirteen)
  /\ HashMap.length (HashMap._resize thirteen) = HashMap.length thirteen.
Proof.
  assert (R : reachable thirteen)
    by (apply after_sets_reachable, after_sets_reachable, reach_default).
  split; [exact R|].
  apply (resize_doubles_and_keeps thirteen R).
Defined.

(** ** The hash function *)

(** C7: for every string key and every capacity above 0, the hash is a
    function of the key and the capacity alone (two tables of the same
    capacity index a key alike), it lies in [0, capacity), and it is the
    rolling hash that starts at 0 and accumulates
    (hash * 31 + charCode) mod capacity over the characters. *)
Theorem hash_is_rolling_hash (m : HashMap.t) (k : jsstring) :
  0 < HashMap._capacity m ->
  HashMap._hash m k = rolling_hash (HashMap._capacity m) k
  /\ 0 <= HashMap._hash m k < HashMap._capacity m
  /\ (forall m' : HashMap.t,
         HashMap._capacity m' = HashMap._capacity m ->
         HashMap._hash m' k = HashMap._hash m k).
Proof.
  intros Hc. split; [|split].
  - apply hash_loop_rolling. exact Hc.
  - apply hash_range. exact Hc.
  - intros m' E. unfold HashMap._hash. rewrite E. reflexivity.
Qed.

Lemma hash_is_rolling_hash_witness :
  0 < HashMap._capacity twelve
  /\ HashMap._hash twelve (str "apple") = rolling_hash (HashMap._capacity twelve) (str "apple")
  /\ 0 <= HashMap._hash twelve (str "apple") < HashMap._capacity twelve
  /\ (forall m' : HashMap.t,
         HashMap._capacity m' = HashMap._capacity twelve ->
         HashMap._hash m' (str "apple") = HashMap._hash twelve (str "apple")).
Proof.
  assert (C : 0 < HashMap._capacity twelve) by (vm_compute; reflexivity).
  split; [exact C|].
  apply (hash_is_rolling_hash twelve (str "apple") C).
Defined.

(** The bucket indices of the test run's keys at capacity 16. *)
Example hash_of_test_keys :
  HashMap._hash twelve (str "apple") = 10
  /\ HashMap._hash twelve (str "hat") = 11
  /\ HashMap._hash twelve (str "grape") = 11
  /\ HashMap._hash twelve (str "moon") = 1.
Proof. repeat split; vm_compute; reflexivity. Qed.

(** ** Iteration *)

(** C8: in every reachable state [keys()], [values()] and [entries()]
    have the same number of elements, that number is [length()], and
    [length()] is the total number of entries across all buckets. *)
Theorem iteration_lengths (m : HashMap.t) :
  reachable m ->
  length (HashMap.keys m) = length (HashMap.values m)
  /\ length (HashMap.values m) = length (HashMap.entries m)
  /\ Z.of_nat (length (HashMap.entries m)) = HashMap.length m
  /\ HashMap.length m
     = Z.of_nat (length (by_bucket_then_chain (HashMap._buckets m))).
Proof.
  intros R. destruct (reachable_inv m R) as [W _].
  unfold HashMap.keys, HashMap.values, HashMap.entries, HashMap.length.
  rewrite !collect_chain_order, !length_fmap, <- chain_order_by_bucket.
  rewrite (wf_size m W). auto.
Qed.

Lemma iteration_lengths_witness :
  reachable thirteen
  /\ length (HashMap.keys thirteen) = length (HashMap.values thirteen)
  /\ length (HashMap.values thirteen) = length (HashMap.entries thirteen)
  /\ Z.of_nat (length (HashMap.entries thirteen)) = HashMap.length thirteen
  /\ HashMap.length thirteen
     = Z.of_nat (length (by_bucket_then_chain (HashMap._buckets thirteen))).
Proof.
  assert (R : reachable thirteen)
    by (apply after_sets_reachable, after_sets_reachable, reach_default).
  split; [exact R|].
  apply (iteration_lengths thirteen R).
Defined.

(** C9, as the code has it: [keys()] and [values()] return the keys and
    the values of the stored entries, one per entry, ordered by bucket
    index and then by chain order; [entries()] returns, in that same
    order, one formatted string "[key, value]" per entry. *)
Theorem iteration_order (m : HashMap.t) :
  HashMap.keys m = HashMap.key <$> by_bucket_then_chain (HashMap._buckets m)
  /\ HashMap.values m = HashMap.value <$> by_bucket_then_chain (HashMap._buckets m)
  /\ HashMap.entries m
     = HashMap.format_entry <$> by_bucket_then_chain (HashMap._buckets m).
Proof.
  unfold HashMap.keys, HashMap.values, HashMap.entries.
  rewrite !collect_chain_order, <- chain_order_by_bucket. auto.
Qed.

(** C9 as stated fails: [entries()] does not return the (key, value)
    pairs.  Two tables that store different pairs return the same
    [entries()], the one string "[a, b, c]". *)
Lemma entries_are_not_the_pairs :
  reachable comma_in_key
  /\ reachable comma_in_value
  /\ pairs comma_in_key = [(str "a, b", VStr (str "c"))]
  /\ pairs comma_in_value = [(str "a", VStr (str "b, c"))]
  /\ HashMap.entries comma_in_key = [str "[a, b, c]"]
  /\ HashMap.entries comma_in_value = [str "[a, b, c]"]
  /\ pairs comma_in_key <> pairs comma_in_value
  /\ ~ (exists decode : list jsstring -> list (jsstring * Value),
          forall m, reachable m -> decode (HashMap.entries m) = pairs m).
Proof.
  assert (R1 : reachable comma_in_key)
    by (apply after_sets_reachable, reach_new; lia).
  assert (R2 : reachable comma_in_value)
    by (apply after_sets_reachable, reach_new; lia).
  assert (E : HashMap.entries comma_in_key = HashMap.entries comma_in_value)
    by (vm_compute; reflexivity).
  assert (NE : pairs comma_in_key <> pairs comma_in_value)
    by (vm_compute; discriminate).
  split; [exact R1|]. split; [exact R2|].
  split; [vm_compute; reflexivity|].
  split; [vm_compute; reflexivity|].
  split; [vm_compute; reflexivity|].
  split; [vm_compute; reflexivity|].
  split; [exact NE|].
  intros (decode & Hd). apply NE.
  rewrite <- (Hd _ R1), <- (Hd _ R2), E. reflexivity.
Qed.

(** ** The absence sentinel *)

(** C10: [undefined] is an in-band absence sentinel.  In every
    reachable state and for every key [k], [set(k, undefined)] stores
    an entry for [k]: the key is listed by [keys()], the entry is
    counted by [length()] (one more than before when [k] was not
    stored); yet [get(k)] is [undefined], [has(k)] is false, and
    [remove(k)] returns false and leaves the table as it is. *)
Theorem undefined_is_in_band (m : HashMap.t) (k : jsstring) :
  reachable m ->
  exists m',
    HashMap.set (Some k) VUndefined m = Ok m'
    /\ stored k m'
    /\ k ∈ HashMap.keys m'
    /\ Z.of_nat (length (HashMap.keys m')) = HashMap.length m'
    /\ (~ stored k m -> HashMap.length m' = HashMap.length m + 1)
    /\ HashMap.get k m' = VUndefined
    /\ HashMap.has k m' = false
    /\ HashMap.remove k m' = (false, m').
Proof.
  intros R. destruct (reachable_inv m R) as [W B].
  destruct (gate_spec m W B) as (Wg & _ & Hsz & _ & Hst & _).
  exists (HashMap._insertWithoutResize k VUndefined (gate m)).
  assert (W' : wf (HashMap._insertWithoutResize k VUndefined (gate m)))
    by (apply insert_wf, Wg).
  assert (S : stored k (HashMap._insertWithoutResize k VUndefined (gate m)))
    by (apply insert_stored; [exact Wg|left; reflexivity]).
  assert (G : HashMap.get k (HashMap._insertWithoutResize k VUndefined (gate m))
              = VUndefined).
  { rewrite insert_get by exact Wg. destruct (decide (k = k)); congruence. }
  assert (H : HashMap.has k (HashMap._insertWithoutResize k VUndefined (gate m)) = false)
    by (unfold HashMap.has; rewrite G; reflexivity).
  split; [reflexivity|]. split; [exact S|].
  unfold HashMap.keys, HashMap.length. rewrite collect_chain_order.
  split; [exact S|]. split; [rewrite length_fmap; symmetry; apply W'|].
  split.
  - intros Hnew. rewrite insert_size_new; [lia|exact Wg|rewrite Hst; exact Hnew].
  - split; [exact G|]. split; [exact H|]. apply remove_has_false, H.
Qed.

Lemma undefined_is_in_band_witness :
  reachable (HashMap.constructor None)
  /\ exists m',
    HashMap.set (Some (str "k")) VUndefined (HashMap.constructor None) = Ok m'
    /\ stored (str "k") m'
    /\ str "k" ∈ HashMap.keys m'
    /\ Z.of_nat (length (HashMap.keys m')) = HashMap.length m'
    /\ (~ stored (str "k") (HashMap.constructor None) ->
        HashMap.length m' = HashMap.length (HashMap.constructor None) + 1)
    /\ HashMap.get (str "k") m' = VUndefined
    /\ HashMap.has (str "k") m' = false
    /\ HashMap.remove (str "k") m' = (false, m').
Proof.
  split; [apply reach_default|].
  apply (undefined_is_in_band (HashMap.constructor None) (str "k") reach_default).
Defined.

(** * Further properties of the class *)

(** ** The table as a finite map *)

Lemma zip_keys_values (m : HashMap.t) :
  zip (HashMap.keys m) (HashMap.values m) = pairs m.
Proof.
  unfold HashMap.keys, HashMap.values, pairs.
  rewrite !collect_chain_order.
  induction (chain_order (HashMap._buckets m)) as [|e l IH]; [reflexivity|].
  simpl. f_equal. exact IH.
Qed.

Lemma pairs_keys (m : HashMap.t) :
  (pairs m).*1 = HashMap.key <$> chain_order (HashMap._buckets m).
Proof.
  unfold pairs. rewrite <- list_fmap_compose. reflexivity.
Qed.

Lemma contents_lookup (m : HashMap.t) (k : jsstring) :
  wf m ->
  contents m !! k = if decide (stored k m) then Some (HashMap.get k m) else None.
Proof.
  intros W. unfold contents. rewrite zip_keys_values.
  destruct (decide (stored k m)) as [Hs|Hs].
  - unfold stored in Hs. apply list_elem_of_fmap in Hs as (e & -> & He).
    rewrite (get_stored e m W He).
    apply elem_of_list_to_map_1; [rewrite pairs_keys; apply W|].
    unfold pairs. apply list_elem_of_fmap. exists e. split; [reflexivity|exact He].
  - apply not_elem_of_list_to_map_1. rewrite pairs_keys. exact Hs.
Qed.

Lemma contents_eq (m1 m2 : HashMap.t) :
  wf m1 -> wf m2 ->
  (forall k, stored k m1 <-> stored k m2) ->
  (forall k, stored k m1 -> HashMap.get k m1 = HashMap.get k m2) ->
  contents m1 = contents m2.
Proof.
  intros W1 W2 Hst Hget. apply map_eq. intros k.
  rewrite !contents_lookup by assumption.
  destruct (decide (stored k m1)) as [H1|H1];
    destruct (decide (stored k m2)) as [H2|H2]; try reflexivity.
  - rewrite (Hget k H1). reflexivity.
  - exfalso. apply H2, Hst, H1.
  - exfalso. apply H1, Hst, H2.
Qed.

Lemma contents_insert (m : HashMap.t) (k : jsstring) (v : Value) :
  wf m ->
  contents (HashMap._insertWithoutResize k v m) = <[k := v]> (contents m).
Proof.
  intros W. apply map_eq. intros k'.
  rewrite lookup_insert, !contents_lookup by (try apply insert_wf; exact W).
  rewrite insert_get by exact W.
  destruct (decide (k = k')) as [->|NE].
  - rewrite decide_True by (apply insert_stored; [exact W|left; reflexivity]).
    rewrite decide_True by reflexivity. reflexivity.
  - rewrite (decide_False (P := k' = k)) by congruence.
    destruct (decide (stored k' m)) as [Hs|Hs].
    + rewrite decide_True by (apply insert_stored; [exact W|right; exact Hs]).
      reflexivity.
    + rewrite decide_False; [reflexivity|].
      intros H. apply insert_stored in H as [?|?]; [congruence|contradiction|exact W].
Qed.

Lemma contents_gate (m : HashMap.t) :
  wf m -> load_bounded m -> contents (gate m) = contents m.
Proof.
  intros W B. destruct (gate_spec m W B) as (Wg & _ & _ & Hget & Hst & _).
  apply contents_eq; try assumption. intros k _. apply Hget.
Qed.

(** A successful [remove] takes one entry for [k] out of the stored
    entries; the others stay, possibly in another order. *)
Lemma remove_present_entries (k : jsstring) (m : HashMap.t) :
  wf m -> HashMap.has k m = true ->
  exists e,
    HashMap.key e = k
    /\ e :: chain_order (HashMap._buckets (HashMap.remove k m).2)
       ≡ₚ chain_order (HashMap._buckets m).
Proof.
  intros W Hhas. pose proof (has_stored k m Hhas) as Hst.
  apply (stored_bucket k m W) in Hst.
  unfold HashMap.remove. rewrite Hhas.
  unfold bucket_at in Hst.
  destruct (HashMap._buckets m !! Z.to_nat (HashMap._hash m k)) as [[b|]|] eqn:Hb;
    try (inversion Hst; fail).
  destruct (find_index_Some k b 0%nat Hst) as (i & x & Hfi & Hx & Hkx).
  rewrite Hfi. simpl.
  pose proof (lookup_lt_Some _ _ _ Hb) as Hlt.
  rewrite array_put_lt by exact Hlt.
  exists x. split; [exact Hkx|].
  rewrite chain_order_insert by exact Hlt.
  rewrite (chain_order_split _ (HashMap._buckets m) Hlt).
  unfold bucket_at. rewrite Hb.
  rewrite Permutation_middle. apply Permutation_app_head.
  apply (Permutation_app_tail _ (l := x :: HashMap.swap_pop i b)).
  apply swap_pop_perm, Hx.
Qed.

Lemma contents_remove (k : jsstring) (m : HashMap.t) :
  wf m -> HashMap.has k m = true ->
  contents (HashMap.remove k m).2 = delete k (contents m).
Proof.
  intros W Hhas.
  destruct (remove_present_entries k m W Hhas) as (e & Hk & Hperm).
  destruct (remove_present k m W Hhas) as (m' & Hrm & W' & _ & _ & _ & Hgone).
  rewrite Hrm in *. simpl in *.
  assert (E : contents m = <[k := HashMap.value e]> (contents m')).
  { unfold contents. rewrite !zip_keys_values.
    rewrite <- list_to_map_cons.
    apply list_to_map_proper; [rewrite pairs_keys; apply W|].
    unfold pairs. rewrite <- Hperm, fmap_cons, Hk. reflexivity. }
  rewrite E. symmetry. apply delete_insert_id.
  rewrite contents_lookup by exact W'. rewrite decide_False by exact Hgone.
  reflexivity.
Qed.

Lemma get_contents (k : jsstring) (m : HashMap.t) :
  wf m -> HashMap.get k m = default VUndefined (contents m !! k).
Proof.
  intros W. rewrite contents_lookup by exact W.
  destruct (decide (stored k m)) as [Hs|Hs]; [reflexivity|].
  apply get_absent_any, Hs.
Qed.

Lemma stored_keys (k : jsstring) (m : HashMap.t) :
  stored k m <-> k ∈ HashMap.keys m.
Proof.
  unfold stored, HashMap.keys. rewrite collect_chain_order. reflexivity.
Qed.

(** X1: in every reachable state the table reads as its finite map:
    [get(k)] is the value bound to [k], or [undefined] when [k] is
    unbound; [keys()] lists exactly the bound keys; [has(k)] holds
    exactly when [k] is bound to a value other than [undefined]; and
    [length()] is the number of bindings. *)
Theorem table_reads_as_map (m : HashMap.t) (k : jsstring) :
  reachable m ->
  HashMap.get k m = default VUndefined (contents m !! k)
  /\ (k ∈ HashMap.keys m <-> is_Some (contents m !! k))
  /\ (HashMap.has k m = true
      <-> exists v, contents m !! k = Some v /\ v <> VUndefined)
  /\ HashMap.length m = Z.of_nat (size (contents m)).
Proof.
  intros R. destruct (reachable_inv m R) as [W _].
  split; [apply get_contents, W|]. split; [|split].
  - rewrite <- stored_keys, contents_lookup by exact W.
    destruct (decide (stored k m)) as [Hs|Hs]; split; intros H;
      try assumption; try contradiction; [eexists; reflexivity|].
    destruct H as [x H]. discriminate.
  - unfold HashMap.has. rewrite get_contents by exact W.
    destruct (contents m !! k) as [v|]; simpl; split.
    + intros H. exists v. split; [reflexivity|]. intros ->. discriminate.
    + intros (v' & E & Hv). inversion E; subst. destruct v'; [contradiction|reflexivity..].
    + discriminate.
    + intros (v' & E & _). discriminate.
  - unfold contents, HashMap.length. rewrite zip_keys_values.
    rewrite map_size_list_to_map by (rewrite pairs_keys; apply W).
    unfold pairs. rewrite length_fmap. apply W.
Qed.

Lemma table_reads_as_map_witness :
  reachable twelve
  /\ HashMap.get (str "kite") twelve = default VUndefined (contents twelve !! str "kite")
  /\ (str "kite" ∈ HashMap.keys twelve <-> is_Some (contents twelve !! str "kite"))
  /\ (HashMap.has (str "kite") twelve = true
      <-> exists v, contents twelve !! str "kite" = Some v /\ v <> VUndefined)
  /\ HashMap.length twelve = Z.of_nat (size (contents twelve)).
Proof.
  assert (R : reachable twelve) by (apply after_sets_reachable, reach_default).
  split; [exact R|].
  apply (table_reads_as_map twelve (str "kite") R).
Defined.

(** X2: in every reachable state [set(k, v)] succeeds and acts on the
    finite map as the insertion of [k := v], whether or not it resizes:
    every other key reads as before, and [keys()] lists [k] and the
    keys listed before. *)
Theorem set_inserts (m : HashMap.t) (k : jsstring) (v : Value) :
  reachable m ->
  exists m',
    HashMap.set (Some k) v m = Ok m'
    /\ contents m' = <[k := v]> (contents m)
    /\ (forall k', k' <> k -> HashMap.get k' m' = HashMap.get k' m)
    /\ (forall k', k' ∈ HashMap.keys m' <-> k' = k \/ k' ∈ HashMap.keys m).
Proof.
  intros R. destruct (reachable_inv m R) as [W B].
  destruct (gate_spec m W B) as (Wg & _ & _ & Hget & Hst & _).
  exists (HashMap._insertWithoutResize k v (gate m)).
  split; [reflexivity|]. split; [|split].
  - rewrite contents_insert by exact Wg. rewrite contents_gate by assumption.
    reflexivity.
  - intros k' NE. rewrite insert_get by exact Wg.
    rewrite decide_False by exact NE. apply Hget.
  - intros k'. rewrite <- !stored_keys, insert_stored by exact Wg.
    rewrite Hst. reflexivity.
Qed.

Lemma set_inserts_witness :
  reachable thirteen
  /\ exists m',
    HashMap.set (Some (str "nut")) (VStr (str "tan")) thirteen = Ok m'
    /\ contents m' = <[str "nut" := VStr (str "tan")]> (contents thirteen)
    /\ (forall k', k' <> str "nut" -> HashMap.get k' m' = HashMap.get k' thirteen)
    /\ (forall k', k' ∈ HashMap.keys m'
                   <-> k' = str "nut" \/ k' ∈ HashMap.keys thirteen).
Proof.
  assert (R : reachable thirteen)
    by (apply after_sets_reachable, after_sets_reachable, reach_default).
  split; [exact R|].
  apply (set_inserts thirteen (str "nut") (VStr (str "tan")) R).
Defined.

(** X3: in every reachable state [remove(k)] returns what [has(k)]
    returned.  When that is true it deletes [k] from the finite map and
    [length()] drops by one; when it is false the table is unchanged.
    Either way every other key reads as before and the capacity stays. *)
Theorem remove_deletes (m : HashMap.t) (k : jsstring) :
  reachable m ->
  (HashMap.remove k m).1 = HashMap.has k m
  /\ contents (HashMap.remove k m).2
     = (if HashMap.has k m then delete k (contents m) else contents m)
  /\ HashMap.length (HashMap.remove k m).2
     = (if HashMap.has k m then HashMap.length m - 1 else HashMap.length m)
  /\ (HashMap.has k m = false -> (HashMap.remove k m).2 = m)
  /\ (forall k', k' <> k ->
                 HashMap.get k' (HashMap.remove k m).2 = HashMap.get k' m)
  /\ HashMap._capacity (HashMap.remove k m).2 = HashMap._capacity m.
Proof.
  intros R. destruct (reachable_inv m R) as [W _].
  destruct (HashMap.has k m) eqn:Hhas.
  - pose proof (contents_remove k m W Hhas) as Hc.
    destruct (remove_present k m W Hhas) as (m' & Hrm & W' & Hsz & Hcap & _ & _).
    rewrite Hrm in *. simpl in *.
    split; [reflexivity|]. split; [exact Hc|]. split; [exact Hsz|].
    split; [discriminate|]. split; [|exact Hcap].
    intros k' NE. rewrite !get_contents by assumption.
    rewrite Hc, lookup_delete_ne by congruence. reflexivity.
  - rewrite remove_has_false by exact Hhas. simpl. auto 10.
Qed.

Lemma remove_deletes_witness :
  reachable thirteen
  /\ (HashMap.remove (str "moon") thirteen).1 = HashMap.has (str "moon") thirteen
  /\ contents (HashMap.remove (str "moon") thirteen).2
     = (if HashMap.has (str "moon") thirteen
        then delete (str "moon") (contents thirteen) else contents thirteen)
  /\ HashMap.length (HashMap.remove (str "moon") thirteen).2
     = (if HashMap.has (str "moon") thirteen
        then HashMap.length thirteen - 1 else HashMap.length thirteen)
  /\ (HashMap.has (str "moon") thirteen = false ->
      (HashMap.remove (str "moon") thirteen).2 = thirteen)
  /\ (forall k', k' <> str "moon" ->
                 HashMap.get k' (HashMap.remove (str "moon") thirteen).2
                 = HashMap.get k' thirteen)
  /\ HashMap._capacity (HashMap.remove (str "moon") thirteen).2
     = HashMap._capacity thirteen.
Proof.
  assert (R : reachable thirteen)
    by (apply after_sets_reachable, after_sets_reachable, reach_default).
  split; [exact R|].
  apply (remove_deletes thirteen (str "moon") R).
Defined.

(** ** Empty tables *)

Lemma bucket_at_holes (n i : nat) : bucket_at i (replicate n None) = [].
Proof.
  unfold bucket_at. destruct (replicate n None !! i) as [[b|]|] eqn:E; try reflexivity.
  apply lookup_replicate in E as [E _]. discriminate.
Qed.

Lemma get_holes (m : HashMap.t) (n : nat) (k : jsstring) :
  HashMap._buckets m = replicate n None -> HashMap.get k m = VUndefined.
Proof.
  intros E. rewrite get_scan, E, bucket_at_holes. reflexivity.
Qed.

Lemma contents_holes (m : HashMap.t) (n : nat) :
  HashMap._buckets m = replicate n None ->
  HashMap.keys m = [] /\ HashMap.values m = [] /\ HashMap.entries m = []
  /\ contents m = ∅.
Proof.
  intros E. unfold contents, HashMap.keys, HashMap.values, HashMap.entries.
  rewrite !collect_chain_order, E, chain_order_replicate. auto.
Qed.

(** X4: [clear()] empties any table: afterwards [length()] is 0, the
    finite map is empty, [keys()], [values()] and [entries()] are empty,
    every key reads [undefined] and [has] is false for it; the capacity
    and the resize counter are as before. *)
Theorem clear_empties (m : HashMap.t) :
  HashMap.length (HashMap.clear m) = 0
  /\ contents (HashMap.clear m) = ∅
  /\ HashMap.keys (HashMap.clear m) = []
  /\ HashMap.values (HashMap.clear m) = []
  /\ HashMap.entries (HashMap.clear m) = []
  /\ (forall k, HashMap.get k (HashMap.clear m) = VUndefined
                /\ HashMap.has k (HashMap.clear m) = false)
  /\ HashMap._capacity (HashMap.clear m) = HashMap._capacity m
  /\ HashMap._resizeCount (HashMap.clear m) = HashMap._resizeCount m.
Proof.
  destruct (contents_holes (HashMap.clear m) (Z.to_nat (HashMap._capacity m)) eq_refl)
    as (Hk & Hv & He & Hc).
  split; [reflexivity|]. split; [exact Hc|]. split; [exact Hk|].
  split; [exact Hv|]. split; [exact He|]. split; [|split; reflexivity].
  intros k.
  assert (G : HashMap.get k (HashMap.clear m) = VUndefined)
    by (apply (get_holes _ (Z.to_nat (HashMap._capacity m))); reflexivity).
  split; [exact G|]. unfold HashMap.has. rewrite G. reflexivity.
Qed.

(** X5: a table constructed with a positive capacity [c] has capacity
    [c] and is empty: [length()] is 0, nothing is listed, every key
    reads [undefined], and [remove] of any key returns false and leaves
    the table as it is.  Without an argument the capacity is 16. *)
Theorem new_table_is_empty (c : Z) :
  0 < c ->
  HashMap._capacity (HashMap.constructor (Some c)) = c
  /\ HashMap.length (HashMap.constructor (Some c)) = 0
  /\ contents (HashMap.constructor (Some c)) = ∅
  /\ HashMap.keys (HashMap.constructor (Some c)) = []
  /\ (forall k,
         HashMap.get k (HashMap.constructor (Some c)) = VUndefined
         /\ HashMap.has k (HashMap.constructor (Some c)) = false
         /\ HashMap.remove k (HashMap.constructor (Some c))
            = (false, HashMap.constructor (Some c)))
  /\ HashMap.constructor None = HashMap.constructor (Some 16).
Proof.
  intros Hc.
  destruct (contents_holes (HashMap.constructor (Some c)) (Z.to_nat c) eq_refl)
    as (Hk & _ & _ & Hm).
  split; [reflexivity|]. split; [reflexivity|]. split; [exact Hm|].
  split; [exact Hk|]. split; [|reflexivity].
  intros k.
  assert (G : HashMap.get k (HashMap.constructor (Some c)) = VUndefined)
    by (apply (get_holes _ (Z.to_nat c)); reflexivity).
  assert (H : HashMap.has k (HashMap.constructor (Some c)) = false)
    by (unfold HashMap.has; rewrite G; reflexivity).
  split; [exact G|]. split; [exact H|]. apply remove_has_false, H.
Qed.

Lemma new_table_is_empty_witness :
  0 < 4
  /\ HashMap._capacity (HashMap.constructor (Some 4)) = 4
  /\ HashMap.length (HashMap.constructor (Some 4)) = 0
  /\ contents (HashMap.constructor (Some 4)) = ∅
  /\ HashMap.keys (HashMap.constructor (Some 4)) = []
  /\ (forall k,
         HashMap.get k (HashMap.constructor (Some 4)) = VUndefined
         /\ HashMap.has k (HashMap.constructor (Some 4)) = false
         /\ HashMap.remove k (HashMap.constructor (Some 4))
            = (false, HashMap.constructor (Some 4)))
  /\ HashMap.constructor None = HashMap.constructor (Some 16).
Proof.
  assert (H : 0 < 4) by lia.
  split; [exact H|]. apply (new_table_is_empty 4 H).
Defined.

(** ** Keys *)

(** X6: in every reachable state no key is listed twice by [keys()]:
    at most one entry per key exists across all buckets. *)
Theorem keys_are_unique (m : HashMap.t) :
  reachable m -> NoDup (HashMap.keys m).
Proof.
  intros R. destruct (reachable_inv m R) as [W _].
  unfold HashMap.keys. rewrite collect_chain_order. apply W.
Qed.

Lemma keys_are_unique_witness :
  reachable thirteen /\ NoDup (HashMap.keys thirteen).
Proof.
  assert (R : reachable thirteen)
    by (apply after_sets_reachable, after_sets_reachable, reach_default).
  split; [exact R|]. apply (keys_are_unique thirteen R).
Defined.

(** X7: in every reachable state, [set(k, v1)] followed by
    [set(k, v2)] leaves [length()] as it was after the first call, and
    [get(k)] reads [v2]. *)
Theorem set_twice_overwrites (m : HashMap.t) (k : jsstring) (v1 v2 : Value) :
  reachable m ->
  exists m1 m2,
    HashMap.set (Some k) v1 m = Ok m1
    /\ HashMap.set (Some k) v2 m1 = Ok m2
    /\ HashMap.length m2 = HashMap.length m1
    /\ HashMap.get k m2 = v2.
Proof.
  intros R. destruct (reachable_inv m R) as [W B].
  destruct (gate_spec m W B) as (Wg & _).
  set (m1 := HashMap._insertWithoutResize k v1 (gate m)).
  assert (R1 : reachable m1) by (apply (reach_set k v1 m m1 R); reflexivity).
  destruct (reachable_inv m1 R1) as [W1 B1].
  destruct (gate_spec m1 W1 B1) as (Wg1 & _ & Hsz & _ & Hst & _).
  exists m1, (HashMap._insertWithoutResize k v2 (gate m1)).
  split; [reflexivity|]. split; [reflexivity|]. split.
  - unfold HashMap.length. rewrite insert_size_old; [exact Hsz|exact Wg1|].
    apply Hst. apply insert_stored; [exact Wg|left; reflexivity].
  - rewrite insert_get by exact Wg1. apply decide_True. reflexivity.
Qed.

Lemma set_twice_overwrites_witness :
  reachable twelve
  /\ exists m1 m2,
    HashMap.set (Some (str "moon")) (VStr (str "silver")) twelve = Ok m1
    /\ HashMap.set (Some (str "moon")) (VStr (str "pale")) m1 = Ok m2
    /\ HashMap.length m2 = HashMap.length m1
    /\ HashMap.get (str "moon") m2 = VStr (str "pale").
Proof.
  assert (R : reachable twelve) by (apply after_sets_reachable, reach_default).
  split; [exact R|].
  apply (set_twice_overwrites twelve (str "moon") (VStr (str "silver"))
           (VStr (str "pale")) R).
Defined.

(** ** Updates in place *)

Lemma overwrite_absent (k : jsstring) (v : Value) (l : list HashMap.Entry) :
  k ∉ HashMap.key <$> l -> overwrite k v <$> l = l.
Proof.
  induction l as [|e l IH]; intros H; [reflexivity|].
  rewrite fmap_cons in H. apply not_elem_of_cons in H as [H1 H2].
  rewrite fmap_cons, IH by exact H2. f_equal.
  unfold overwrite. apply decide_False. congruence.
Qed.

Lemma update_chain_overwrite (k : jsstring) (v : Value) (b b' : list HashMap.Entry) :
  NoDup (HashMap.key <$> b) ->
  HashMap.update_chain k v b = Some b' ->
  b' = overwrite k v <$> b.
Proof.
  revert b'. induction b as [|item rest IH]; intros b' ND H; simpl in H.
  - discriminate.
  - rewrite fmap_cons in ND. apply NoDup_cons in ND as [N1 N2].
    rewrite fmap_cons. unfold overwrite at 1.
    destruct (decide (HashMap.key item = k)) as [E|NE].
    + inversion H; subst. rewrite overwrite_absent by exact N1. reflexivity.
    + destruct (HashMap.update_chain k v rest) as [r|]; [|discriminate].
      inversion H; subst. f_equal. apply IH; [exact N2|reflexivity].
Qed.

(** Updating a stored key rewrites its entry where it stands. *)
Lemma insert_chain_order_old (k : jsstring) (v : Value) (m : HashMap.t) :
  wf m -> stored k m ->
  chain_order (HashMap._buckets (HashMap._insertWithoutResize k v m))
  = overwrite k v <$> chain_order (HashMap._buckets m).
Proof.
  intros W Hs. pose proof (hash_index_lt m k W) as Hlt.
  pose proof (wf_unique m W) as ND.
  rewrite insert_buckets by exact W. cbv zeta.
  rewrite chain_order_insert by exact Hlt.
  rewrite (chain_order_split _ (HashMap._buckets m) Hlt) in ND.
  rewrite (chain_order_split _ (HashMap._buckets m) Hlt).
  rewrite !fmap_app in ND. rewrite !fmap_app.
  apply (stored_bucket k m W) in Hs.
  apply NoDup_app in ND as (_ & Hpre & ND).
  apply NoDup_app in ND as (NDb & Hpost & _).
  rewrite (overwrite_absent k v (chain_order (take _ _))).
  2: { intros H. apply (Hpre k H). apply elem_of_app. left. exact Hs. }
  rewrite (overwrite_absent k v (chain_order (drop _ _))) by (apply Hpost, Hs).
  do 2 f_equal. unfold upsert.
  destruct (HashMap.update_chain k v _) as [b'|] eqn:E.
  - apply (update_chain_overwrite k v _ b' NDb E).
  - apply update_chain_None in E. contradiction.
Qed.

(** X8: in every reachable state in which no resize is due, [set(k, v)]
    for a stored key [k] updates in place: [keys()] is unchanged, order
    included, and [values()] changes only at the position of [k], where
    it now holds [v]. *)
Theorem set_updates_in_place (m : HashMap.t) (k : jsstring) (v : Value) :
  reachable m -> k ∈ HashMap.keys m -> HashMap._needsResize m = false ->
  exists m',
    HashMap.set (Some k) v m = Ok m'
    /\ HashMap.keys m' = HashMap.keys m
    /\ zip (HashMap.keys m') (HashMap.values m')
       = (fun p => if decide (p.1 = k) then (p.1, v) else p)
           <$> zip (HashMap.keys m) (HashMap.values m).
Proof.
  intros R Hk Hn. destruct (reachable_inv m R) as [W _].
  apply stored_keys in Hk.
  exists (HashMap._insertWithoutResize k v m).
  split; [unfold HashMap.set; rewrite Hn; reflexivity|].
  split.
  - unfold HashMap.keys. rewrite !collect_chain_order.
    apply insert_keys_old; assumption.
  - rewrite !zip_keys_values. unfold pairs.
    rewrite insert_chain_order_old by assumption.
    rewrite <- !list_fmap_compose. apply list_fmap_ext.
    intros i e _. simpl. unfold overwrite.
    destruct (decide (HashMap.key e = k)); reflexivity.
Qed.

Lemma set_updates_in_place_witness :
  reachable twelve /\ str "kite" ∈ HashMap.keys twelve
  /\ HashMap._needsResize twelve = false
  /\ exists m',
    HashMap.set (Some (str "kite")) (VStr (str "blue")) twelve = Ok m'
    /\ HashMap.keys m' = HashMap.keys twelve
    /\ zip (HashMap.keys m') (HashMap.values m')
       = (fun p => if decide (p.1 = str "kite") then (p.1, VStr (str "blue")) else p)
           <$> zip (HashMap.keys twelve) (HashMap.values twelve).
Proof.
  assert (R : reachable twelve) by (apply after_sets_reachable, reach_default).
  assert (K : str "kite" ∈ HashMap.keys twelve)
    by (apply (proj1 (stored_keys (str "kite") twelve)); decide_stored).
  assert (N : HashMap._needsResize twelve = false) by (vm_compute; reflexivity).
  split; [exact R|]. split; [exact K|]. split; [exact N|].
  apply (set_updates_in_place twelve (str "kite") (VStr (str "blue")) R K N).
Defined.

(** ** Capacity *)

Lemma step_reachable (m m' : HashMap.t) :
  reachable m -> step m m' -> reachable m'.
Proof.
  intros R St. inversion St as [k v m0 m1 H|k m0|m0]; subst.
  - apply (reach_set k v m m' R H).
  - apply reach_remove, R.
  - apply reach_clear, R.
Qed.

Lemma after_sets_steps kvs m : rtc step m (after_sets kvs m).
Proof.
  revert m. induction kvs as [|[k v] kvs IH]; intros m; [apply rtc_refl|].
  simpl. eapply rtc_l; [|apply IH]. apply (step_set k v). reflexivity.
Qed.

(** One call either keeps capacity and resize counter, or doubles the
    one and increments the other. *)
Lemma step_capacity (m m' : HashMap.t) :
  reachable m -> step m m' ->
  (HashMap._capacity m' = HashMap._capacity m
   /\ HashMap._resizeCount m' = HashMap._resizeCount m)
  \/ (HashMap._capacity m' = 2 * HashMap._capacity m
      /\ HashMap._resizeCount m' = HashMap._resizeCount m + 1).
Proof.
  intros R St. destruct (reachable_inv m R) as [W B].
  inversion St as [k v m0 m1 H|k m0|m0]; subst.
  - rewrite set_gate in H. inversion H; subst; clear H.
    destruct (gate_spec m W B) as (_ & _ & _ & _ & _ & Hc & Hr).
    rewrite insert_capacity, insert_resizeCount, Hc, Hr.
    destruct (HashMap._needsResize m); [right|left]; auto.
  - left. destruct (HashMap.has k m) eqn:Hhas.
    + destruct (remove_present k m W Hhas) as (m2 & -> & _ & _ & Hc & Hr & _).
      auto.
    + rewrite remove_has_false by exact Hhas. auto.
  - left. auto.
Qed.

(** X9: the capacity only ever doubles.  From a reachable state, after
    any sequence of [set], [remove] and [clear] calls, the resize
    counter has not decreased and the capacity is the earlier capacity
    times 2 to the number of resizes in between; so it never shrinks. *)
Theorem capacity_only_doubles (m0 m : HashMap.t) :
  reachable m0 -> rtc step m0 m ->
  HashMap._resizeCount m0 <= HashMap._resizeCount m
  /\ HashMap._capacity m
     = HashMap._capacity m0 * 2 ^ (HashMap._resizeCount m - HashMap._resizeCount m0)
  /\ HashMap._capacity m0 <= HashMap._capacity m.
Proof.
  intros R Hsteps.
  enough (H : HashMap._resizeCount m0 <= HashMap._resizeCount m
              /\ HashMap._capacity m
                 = HashMap._capacity m0
                   * 2 ^ (HashMap._resizeCount m - HashMap._resizeCount m0)).
  { destruct H as [H1 H2]. split; [exact H1|]. split; [exact H2|].
    destruct (reachable_inv m0 R) as [W _]. pose proof (wf_capacity m0 W).
    rewrite H2.
    assert (0 < 2 ^ (HashMap._resizeCount m - HashMap._resizeCount m0))
      by (apply Z.pow_pos_nonneg; lia).
    nia. }
  induction Hsteps as [x|x y z Hxy Hyz IH].
  - split; [lia|]. rewrite Z.sub_diag. simpl. lia.
  - destruct (IH (step_reachable x y R Hxy)) as [IH1 IH2].
    destruct (step_capacity x y R Hxy) as [[Hc Hr]|[Hc Hr]].
    + rewrite IH2, Hc, Hr. split; [lia|reflexivity].
    + split; [lia|]. rewrite IH2, Hc, Hr.
      replace (HashMap._resizeCount z - HashMap._resizeCount x)
        with (Z.succ (HashMap._resizeCount z - (HashMap._resizeCount x + 1))) by lia.
      rewrite Z.pow_succ_r by lia. lia.
Qed.

Lemma capacity_only_doubles_witness :
  reachable twelve
  /\ rtc step twelve
       (after_sets [entry "moon" "silver"; entry "nut" "tan"] twelve)
  /\ HashMap._resizeCount twelve
     <= HashMap._resizeCount
          (after_sets [entry "moon" "silver"; entry "nut" "tan"] twelve)
  /\ HashMap._capacity
       (after_sets [entry "moon" "silver"; entry "nut" "tan"] twelve)
     = HashMap._capacity twelve
       * 2 ^ (HashMap._resizeCount
                (after_sets [entry "moon" "silver"; entry "nut" "tan"] twelve)
              - HashMap._resizeCount twelve)
  /\ HashMap._capacity twelve
     <= HashMap._capacity
          (after_sets [entry "moon" "silver"; entry "nut" "tan"] twelve).
Proof.
  assert (R : reachable twelve) by (apply after_sets_reachable, reach_default).
  assert (S : rtc step twelve
                (after_sets [entry "moon" "silver"; entry "nut" "tan"] twelve))
    by apply after_sets_steps.
  split; [exact R|]. split; [exact S|].
  apply (capacity_only_doubles twelve _ R S).
Defined.

(** X10: in every reachable state [length()] is not negative and
    exceeds three quarters of the capacity by at most one entry:
    (length() - 1) / capacity <= 0.75. *)
Theorem load_stays_bounded (m : HashMap.t) :
  reachable m ->
  0 <= HashMap.length m
  /\ (inject_Z (HashMap.length m - 1) / inject_Z (HashMap._capacity m) <= 3 # 4)%Q.
Proof.
  intros R. destruct (reachable_inv m R) as [W B].
  split.
  - unfold HashMap.length. rewrite (wf_size m W). lia.
  - apply load_le; [apply W|]. exact B.
Qed.

Lemma load_stays_bounded_witness :
  reachable thirteen
  /\ 0 <= HashMap.length thirteen
  /\ (inject_Z (HashMap.length thirteen - 1) / inject_Z (HashMap._capacity thirteen)
      <= 3 # 4)%Q.
Proof.
  assert (R : reachable thirteen)
    by (apply after_sets_reachable, after_sets_reachable, reach_default).
  split; [exact R|]. apply (load_stays_bounded thirteen R).
Defined.

(** X11: one doubling always suffices.  On every reachable table a
    resize leaves the load factor at most 0.75, so [_needsResize] is
    false afterwards, and the finite map is what it was. *)
Theorem resize_settles (m : HashMap.t) :
  reachable m ->
  HashMap._needsResize (HashMap._resize m) = false
  /\ contents (HashMap._resize m) = contents m.
Proof.
  intros R. destruct (reachable_inv m R) as [W B].
  destruct (resize_spec m W) as (W' & Hc & _ & Hs & Hg & Hst).
  split.
  - apply needsResize_false; [exact W'|]. rewrite Hc, Hs.
    unfold load_bounded in B. pose proof (wf_capacity m W). lia.
  - apply contents_eq; try assumption. intros k _. apply Hg.
Qed.

Lemma resize_settles_witness :
  reachable thirteen
  /\ HashMap._needsResize (HashMap._resize thirteen) = false
  /\ contents (HashMap._resize thirteen) = contents thirteen.
Proof.
  assert (R : reachable thirteen)
    by (apply after_sets_reachable, after_sets_reachable, reach_default).
  split; [exact R|]. apply (resize_settles thirteen R).
Defined.

(** ** The hash as a polynomial *)

Lemma rolling_fold_polynomial (n : Z) (k : jsstring) :
  forall a,
    fold_left (rolling_step n) k (a mod n)
    = (a * 31 ^ Z.of_nat (length k) + hash_polynomial k) mod n.
Proof.
  induction k as [|c k IH]; intros a.
  - simpl. f_equal. lia.
  - cbn [fold_left hash_polynomial length].
    assert (E : rolling_step n (a mod n) c = (a * 31 + Z.of_N c) mod n).
    { unfold rolling_step.
      rewrite Zplus_mod, Zmult_mod_idemp_l, <- Zplus_mod. reflexivity. }
    rewrite E, IH. f_equal.
    rewrite Nat2Z.inj_succ, Z.pow_succ_r by lia. lia.
Qed.

Lemma hash_polynomial_mod (m : HashMap.t) (k : jsstring) :
  0 < HashMap._capacity m ->
  HashMap._hash m k = hash_polynomial k mod HashMap._capacity m.
Proof.
  intros Hc. unfold HashMap._hash. rewrite hash_loop_rolling by exact Hc.
  unfold rolling_hash.
  rewrite <- (Zmod_0_l (HashMap._capacity m)) at 1.
  rewrite rolling_fold_polynomial. f_equal; lia.
Qed.

(** X12: for every capacity above 0 the hash of a key is the value of
    its polynomial in 31 (character codes as coefficients, first
    character highest) reduced modulo the capacity: reducing after every
    character loses nothing.  Keys whose polynomials agree modulo the
    capacity therefore share a bucket. *)
Theorem hash_is_polynomial (m : HashMap.t) (k : jsstring) :
  0 < HashMap._capacity m ->
  HashMap._hash m k = hash_polynomial k mod HashMap._capacity m
  /\ (forall k',
         hash_polynomial k' mod HashMap._capacity m
         = hash_polynomial k mod HashMap._capacity m ->
         HashMap._hash m k' = HashMap._hash m k).
Proof.
  intros Hc.
  split; [apply hash_polynomial_mod, Hc|].
  intros k' E. rewrite !hash_polynomial_mod by exact Hc. exact E.
Qed.

Lemma hash_is_polynomial_witness :
  0 < HashMap._capacity twelve
  /\ HashMap._hash twelve (str "hat")
     = hash_polynomial (str "hat") mod HashMap._capacity twelve
  /\ (forall k',
         hash_polynomial k' mod HashMap._capacity twelve
         = hash_polynomial (str "hat") mod HashMap._capacity twelve ->
         HashMap._hash twelve k' = HashMap._hash twelve (str "hat")).
Proof.
  assert (C : 0 < HashMap._capacity twelve) by (vm_compute; reflexivity).
  split; [exact C|]. apply (hash_is_polynomial twelve (str "hat") C).
Defined.

(** X13: when a reachable table is resized, a key's bucket index either
    stays what it was or moves up by exactly the old capacity. *)
Theorem hash_after_doubling (m : HashMap.t) (k : jsstring) :
  reachable m ->
  HashMap._hash (HashMap._resize m) k = HashMap._hash m k
  \/ HashMap._hash (HashMap._resize m) k = HashMap._hash m k + HashMap._capacity m.
Proof.
  intros R. destruct (reachable_inv m R) as [W _].
  destruct (resize_spec m W) as (W' & Hc & _).
  pose proof (wf_capacity m W) as Hpos.
  pose proof (wf_capacity _ W') as Hpos'.
  pose proof (hash_range (HashMap._resize m) k Hpos') as Hr.
  pose proof (hash_polynomial_mod m k Hpos) as E1.
  pose proof (hash_polynomial_mod (HashMap._resize m) k Hpos') as E2.
  rewrite Hc in *.
  assert (E : HashMap._hash m k
              = HashMap._hash (HashMap._resize m) k mod HashMap._capacity m).
  { rewrite E1, E2. symmetry. apply Z.mod_mod_divide. exists 2. lia. }
  destruct (Z_lt_dec (HashMap._hash (HashMap._resize m) k) (HashMap._capacity m))
    as [Hlt|Hge].
  - left. rewrite E. symmetry. apply Z.mod_small. lia.
  - right. rewrite E.
    replace (HashMap._hash (HashMap._resize m) k)
      with ((HashMap._hash (HashMap._resize m) k - HashMap._capacity m)
            + 1 * HashMap._capacity m) at 2 by lia.
    rewrite Z_mod_plus_full, Z.mod_small by lia. lia.
Qed.

Lemma hash_after_doubling_witness :
  reachable thirteen
  /\ (HashMap._hash (HashMap._resize thirteen) (str "hat")
      = HashMap._hash thirteen (str "hat")
      \/ HashMap._hash (HashMap._resize thirteen) (str "hat")
         = HashMap._hash thirteen (str "hat") + HashMap._capacity thirteen).
Proof.
  assert (R : reachable thirteen)
    by (apply after_sets_reachable, after_sets_reachable, reach_default).
  split; [exact R|]. apply (hash_after_doubling thirteen (str "hat") R).
Defined.

(** ** Placement and iteration *)

(** X14: in every reachable state the bucket array has exactly
    [capacity] slots and every entry sits in the bucket its key hashes
    to under the current capacity. *)
Theorem entries_sit_in_their_bucket (m : HashMap.t) :
  reachable m ->
  Z.of_nat (length (HashMap._buckets m)) = HashMap._capacity m
  /\ forall (i : nat) (b : list HashMap.Entry) (e : HashMap.Entry),
      HashMap._buckets m !! i = Some (Some b) ->
      e ∈ b ->
      HashMap._hash m (HashMap.key e) = Z.of_nat i.
Proof.
  intros R. destruct (reachable_inv m R) as [W _].
  pose proof (wf_capacity m W) as Hc.
  split; [rewrite (wf_buckets m W); lia|].
  intros i b e Hb He.
  pose proof (hash_range m (HashMap.key e) Hc) as Hr.
  rewrite <- (wf_placed m W i e); [lia|].
  unfold bucket_at. rewrite Hb. exact He.
Qed.

Lemma entries_sit_in_their_bucket_witness :
  reachable thirteen
  /\ Z.of_nat (length (HashMap._buckets thirteen)) = HashMap._capacity thirteen
  /\ forall (i : nat) (b : list HashMap.Entry) (e : HashMap.Entry),
      HashMap._buckets thirteen !! i = Some (Some b) ->
      e ∈ b ->
      HashMap._hash thirteen (HashMap.key e) = Z.of_nat i.
Proof.
  assert (R : reachable thirteen)
    by (apply after_sets_reachable, after_sets_reachable, reach_default).
  split; [exact R|]. apply (entries_sit_in_their_bucket thirteen R).
Defined.

(** X15: in every reachable state the iteration methods agree with
    lookup: [values()] is [get] applied to each key of [keys()], in
    order, and [entries()] is the rendering "[key, value]" of each key
    with the value [get] reads for it. *)
Theorem iteration_agrees_with_get (m : HashMap.t) :
  reachable m ->
  HashMap.values m = (fun k => HashMap.get k m) <$> HashMap.keys m
  /\ HashMap.entries m
     = (fun k => str "[" ++ k ++ str ", " ++ ToString (HashMap.get k m) ++ str "]")
         <$> HashMap.keys m.
Proof.
  intros R. destruct (reachable_inv m R) as [W _].
  unfold HashMap.values, HashMap.entries, HashMap.keys.
  rewrite !collect_chain_order, <- !list_fmap_compose.
  split; apply list_fmap_ext; intros i e He; simpl;
    apply list_elem_of_lookup_2 in He;
    [|unfold HashMap.format_entry]; rewrite (get_stored e m W He); reflexivity.
Qed.

Lemma iteration_agrees_with_get_witness :
  reachable thirteen
  /\ HashMap.values thirteen = (fun k => HashMap.get k thirteen) <$> HashMap.keys thirteen
  /\ HashMap.entries thirteen
     = (fun k => str "[" ++ k ++ str ", " ++ ToString (HashMap.get k thirteen) ++ str "]")
         <$> HashMap.keys thirteen.
Proof.
  assert (R : reachable thirteen)
    by (apply after_sets_reachable, after_sets_reachable, reach_default).
  split; [exact R|]. apply (iteration_agrees_with_get thirteen R).
Defined.

(** ** Round trip *)

(** X16: in every reachable state, setting a key that is not listed to
    a value other than [undefined] and then removing it gives back the
    finite map and the [length()] there were before; the removal
    returns true. *)
Theorem set_remove_restores (m : HashMap.t) (k : jsstring) (v : Value) :
  reachable m -> k ∉ HashMap.keys m -> v <> VUndefined ->
  exists m',
    HashMap.set (Some k) v m = Ok m'
    /\ (HashMap.remove k m').1 = true
    /\ contents (HashMap.remove k m').2 = contents m
    /\ HashMap.length (HashMap.remove k m').2 = HashMap.length m.
Proof.
  intros R Hk Hv. rewrite <- stored_keys in Hk.
  destruct (reachable_inv m R) as [W B].
  destruct (gate_spec m W B) as (Wg & _ & Hsz & _ & Hst & _).
  set (m' := HashMap._insertWithoutResize k v (gate m)).
  assert (W' : wf m') by (apply insert_wf, Wg).
  assert (Hhas : HashMap.has k m' = true).
  { unfold HashMap.has, m'. rewrite insert_get by exact Wg.
    rewrite decide_True by reflexivity. destruct v; [contradiction|reflexivity..]. }
  exists m'. split; [reflexivity|].
  pose proof (contents_remove k m' W' Hhas) as Hc.
  destruct (remove_present k m' W' Hhas) as (m2 & Hrm & _ & Hsz2 & _).
  rewrite Hrm in *. simpl in *.
  split; [reflexivity|]. split.
  - rewrite Hc. unfold m'. rewrite contents_insert by exact Wg.
    rewrite contents_gate by assumption.
    apply delete_insert_id. rewrite contents_lookup by exact W.
    apply decide_False. exact Hk.
  - unfold HashMap.length. rewrite Hsz2. unfold m'.
    rewrite insert_size_new; [lia|exact Wg|rewrite Hst; exact Hk].
Qed.

Lemma set_remove_restores_witness :
  reachable thirteen /\ (str "nut" ∉ HashMap.keys thirteen)
  /\ VStr (str "tan") <> VUndefined
  /\ exists m',
    HashMap.set (Some (str "nut")) (VStr (str "tan")) thirteen = Ok m'
    /\ (HashMap.remove (str "nut") m').1 = true
    /\ contents (HashMap.remove (str "nut") m').2 = contents thirteen
    /\ HashMap.length (HashMap.remove (str "nut") m').2 = HashMap.length thirteen.
Proof.
  assert (R : reachable thirteen)
    by (apply after_sets_reachable, after_sets_reachable, reach_default).
  assert (K : str "nut" ∉ HashMap.keys thirteen).
  { assert (N : ~ stored (str "nut") thirteen) by decide_stored.
    intros H. apply N. apply (proj2 (stored_keys (str "nut") thirteen)), H. }
  assert (V : VStr (str "tan") <> VUndefined) by discriminate.
  split; [exact R|]. split; [exact K|]. split; [exact V|].
  apply (set_remove_restores thirteen (str "nut") (VStr (str "tan")) R K V).
Defined.
